(** * The network interface plugin: retry policy, pool lifecycle, settings

    A shallow embedding of
    [src/xmcl-runtime/network/pluginNetworkInterface.ts]: the retry
    callback handed to the download agent, the patch that makes a pool's
    connection limit follow [maxConnection], the idle-pool reaper armed by
    [drain] events, [destroyPool], and the settings subscribers. *)

From Stdlib Require Import ZArith QArith Qabs Qminmax Qround Lia Bool Ascii.
From stdpp Require Import base option gmap strings list.

Local Open Scope Z_scope.

(** ** JavaScript values

    A JavaScript [number] is a rational, one of the two infinities, or
    [NaN]; the sign of zero is not modelled.  Comparisons and [Math.min] are
    exact on doubles and are defined here.  The operators that round,
    overflow and underflow, [*] and [**], are not fixed here: the code that
    uses them takes them as parameters. *)
Module JS.

Inductive number :=
| NaN
| Inf (negative : bool)
| Fin (q : Q).

Definition of_Z (z : Z) : number := Fin (inject_Z z).

(** [Number.isNaN] *)
Definition isNaN (n : number) : bool :=
  match n with NaN => true | _ => false end.

(** [x > y] on numbers; any comparison with [NaN] is false. *)
Definition gt (x y : number) : bool :=
  match x, y with
  | NaN, _ | _, NaN => false
  | Inf false, Inf false => false
  | Inf false, _ => true
  | Inf true, _ => false
  | Fin _, Inf s => s
  | Fin a, Fin b => negb (Qle_bool a b)
  end.

(** [x === y] on numbers. *)
Definition strict_eq (x y : number) : bool :=
  match x, y with
  | Fin a, Fin b => Qeq_bool a b
  | Inf s, Inf t => eqb s t
  | _, _ => false
  end.

(** The product without rounding.  It is [x * y] wherever the exact product
    is a double, as on the samples below, where it stands for [*]. *)
Definition exact_mul (x y : number) : number :=
  match x, y with
  | NaN, _ | _, NaN => NaN
  | Fin a, Fin b => Fin (a * b)
  | Inf s, Inf t => Inf (xorb s t)
  | Inf s, Fin q | Fin q, Inf s =>
      match (q ?= 0)%Q with
      | Eq => NaN
      | Lt => Inf (negb s)
      | Gt => Inf s
      end
  end.

(** [x - y], as used on time values: integers of milliseconds, whose
    difference is exact. *)
Definition sub (x y : number) : number :=
  match x, y with
  | NaN, _ | _, NaN => NaN
  | Fin a, Fin b => Fin (a - b)
  | Inf s, Fin _ => Inf s
  | Fin _, Inf t => Inf (negb t)
  | Inf s, Inf t => if eqb s t then NaN else Inf s
  end.

(** The power without rounding, for a finite base and an integer exponent
    (a zero base with a negative exponent gives [Infinity]).  It is [x ** n]
    wherever the exact power is a double, as on the samples below, where it
    stands for [**]. *)
Definition exact_pow (x : Q) (n : Z) : number :=
  if (n <? 0) && Qeq_bool x 0 then Inf false else Fin (x ^ n)%Q.

(** [Math.min(x, y)] *)
Definition Math_min (x y : number) : number :=
  match x, y with
  | NaN, _ | _, NaN => NaN
  | Inf true, _ | _, Inf true => Inf true
  | Inf false, z | z, Inf false => z
  | Fin a, Fin b => Fin (Qmin a b)
  end.

(** Truncation toward zero ([ToIntegerOrInfinity] on a finite number). *)
Definition truncate (q : Q) : Z :=
  if Qle_bool 0 q then Qfloor q else Qceiling q.

(** [new Date(value).getTime()] for a [value] that is a number: the time
    value is [TimeClip(value)], that is [NaN] unless [value] is finite and
    at most 8.64e15 in magnitude, and else [value] truncated. *)
Definition Date_getTime (value : number) : number :=
  match value with
  | Fin q =>
      if Qle_bool (Qabs q) (inject_Z 8640000000000000)
      then of_Z (truncate q) else NaN
  | _ => NaN
  end.

(** The values a header-derived variable can hold. *)
Inductive value :=
| Undefined
| Str (s : string)
| Num (n : number).

(** [ToBoolean] *)
Definition truthy (v : value) : bool :=
  match v with
  | Undefined => false
  | Str s => negb (String.eqb s "")
  | Num (Fin q) => negb (Qeq_bool q 0)
  | Num (Inf _) => true
  | Num NaN => false
  end.

(** [typeof v === 'number' && v === 0] *)
Definition is_number_zero (v : value) : bool :=
  match v with
  | Num n => strict_eq n (of_Z 0)
  | _ => false
  end.

(** A fragment of [StringToNumber]: an optional sign followed by decimal
    digits, the empty string being 0; every other string is [NaN] here.
    It serves to run the model on concrete headers. *)
Definition digit (c : Ascii.ascii) : option Z :=
  let n := Z.of_nat (Ascii.nat_of_ascii c) in
  if (48 <=? n) && (n <=? 57) then Some (n - 48) else None.

Fixpoint digits (acc : Z) (s : string) : option Z :=
  match s with
  | EmptyString => Some acc
  | String c rest =>
      match digit c with
      | Some d => digits (10 * acc + d) rest
      | None => None
      end
  end.

Definition decimal_StringToNumber (s : string) : number :=
  match s with
  | EmptyString => of_Z 0
  | String "-"%char (String _ _ as rest) =>
      match digits 0 rest with Some z => of_Z (- z) | None => NaN end
  | String "+"%char (String _ _ as rest) =>
      match digits 0 rest with Some z => of_Z z | None => NaN end
  | _ => match digits 0 s with Some z => of_Z z | None => NaN end
  end.

End JS.

(** ** The dispatchers of the agent

    [agent[kClients]] maps an origin to its dispatcher.  A dispatcher is an
    undici [Pool], with statistics and own properties, or another
    dispatcher, of which only the [kRunning] slot is read. *)

Module PoolStats.
Record t := {
  connected : nat;
  free : nat;
  pending : nat;
  queued : nat;
  running : nat;
  size : nat
}.
End PoolStats.

Record Symbol := { sym_id : positive; description : option string }.

Inductive PropertyKey :=
| StringKey (s : string)
| SymbolKey (s : Symbol).

(** The one closure installed as a getter: [() => maxConnection]. *)
Inductive Getter := Get_maxConnection.

Inductive PropertyValue :=
| Null
| NumberValue (z : Z)
| Opaque.

Inductive Property :=
| Data (v : PropertyValue)
| Accessor (get : Getter).

Record Pool := {
  kConnections : Symbol;
  own : list (PropertyKey * Property);
  stats : PoolStats.t
}.

Inductive Dispatcher :=
| IsPool (p : Pool)
| NotPool (kRunning : JS.value).

#[global] Instance Symbol_eq_dec : EqDecision Symbol.
Proof. solve_decision. Defined.

#[global] Instance PropertyKey_eq_dec : EqDecision PropertyKey.
Proof. solve_decision. Defined.

(** [!n] for a count that may be missing ([stats?.connected]). *)
Definition not_count (n : option nat) : bool :=
  match n with
  | Some (S _) => false
  | _ => true
  end.

(** [!stats?.connected && !stats?.pending && !stats?.running &&
     !stats?.queued && !stats?.free] *)
Definition no_connection (stats : option PoolStats.t) : bool :=
  not_count (PoolStats.connected <$> stats)
  && not_count (PoolStats.pending <$> stats)
  && not_count (PoolStats.running <$> stats)
  && not_count (PoolStats.queued <$> stats)
  && not_count (PoolStats.free <$> stats).

(** [pool?.stats]; a dispatcher that is not a pool has no [stats]. *)
Definition stats_of (pool : option Dispatcher) : option PoolStats.t :=
  match pool with
  | Some (IsPool p) => Some (stats p)
  | _ => None
  end.

(** ** The retry callback *)

Module URL.
Record t := { href : string; origin : string }.
End URL.

Inductive Origin :=
| OriginString (s : string)
| OriginURL (u : URL.t).

Record RetryOptions := {
  maxRetries : Z;
  minTimeout : Q;
  maxTimeout : Q;
  timeoutFactor : Q;
  statusCodes : option (list Z);
  errorCodes : list string;
  methods : option (list string)
}.

Record RequestError := {
  statusCode : option Z;
  code : option string;
  headers : option (gmap string string)
}.

Record NoRetry := { value : bool }.

Record DispatchOptions := {
  noRetry : option NoRetry;
  method : string;
  origin : option Origin;
  retryOptions : RetryOptions
}.

Record RetryState := { counter : Z }.

(** What the callback does with [cb]. *)
Inductive RetryDecision :=
| Fail                                   (* cb(err) *)
| RetryAfter (retryTimeout : JS.number). (* setTimeout(() => cb(null), retryTimeout) *)

(** [code &&]: a code that is present and not the empty string. *)
Definition truthy_code (code : option string) : option string :=
  match code with
  | Some c => if String.eqb c "" then None else Some c
  | None => None
  end.

(** [!opts.origin] *)
Definition no_origin (o : option Origin) : bool :=
  match o with
  | None => true
  | Some (OriginString s) => String.eqb s ""
  | Some (OriginURL _) => false
  end.

(** [typeof opts.origin === 'string' ? opts.origin : opts.origin.origin] *)
Definition origin_key (o : Origin) : string :=
  match o with
  | OriginString s => s
  | OriginURL u => URL.origin u
  end.

Section Retry.

(** [StringToNumber], the conversion [Number] applies to a string. *)
Variable StringToNumber : string -> JS.number.

(** The agent's [kClients] map and [Date.now()] at the time of the call. *)
Variable clients : gmap string Dispatcher.
Variable now : Z.

(** The arithmetic of doubles: [x * y], and [x ** n] for the base and the
    integer exponent of the backoff.  Both round, overflow to an infinity
    and underflow to zero; nothing is assumed of them. *)
Variable mul : JS.number -> JS.number -> JS.number.
Variable pow : Q -> Z -> JS.number.

Definition Number (v : JS.value) : JS.number :=
  match v with
  | JS.Undefined => JS.NaN
  | JS.Str s => StringToNumber s
  | JS.Num n => n
  end.

Definition calculateRetryAfterHeader (retryAfter : JS.number) : JS.number :=
  let current := JS.of_Z now in
  let diff := JS.sub (JS.Date_getTime retryAfter) current in
  diff.

(** Lines 144-150: the variable [retryAfterHeader] after the [if]. *)
Definition retryAfterHeader (err : RequestError) : JS.value :=
  let retryAfterHeader :=
    from_option JS.Str JS.Undefined (headers err ≫= lookup "retry-after") in
  if JS.truthy retryAfterHeader then
    let retryAfterHeader := Number retryAfterHeader in
    JS.Num (if JS.isNaN retryAfterHeader
            then calculateRetryAfterHeader retryAfterHeader
            else mul retryAfterHeader (JS.of_Z 1000))
  else retryAfterHeader.

(** The exponential backoff of line 155. *)
Definition backoff (state : RetryState) (ro : RetryOptions) : JS.number :=
  JS.Math_min
    (mul (JS.Fin (minTimeout ro))
         (pow (timeoutFactor ro) (counter state - 1)))
    (JS.Fin (maxTimeout ro)).

(** Lines 152-155. *)
Definition retryTimeout (err : RequestError) (state : RetryState)
    (ro : RetryOptions) : JS.number :=
  let retryAfterHeader := retryAfterHeader err in
  if JS.gt (Number retryAfterHeader) (JS.of_Z 0)
  then JS.Math_min (Number retryAfterHeader) (JS.Fin (maxTimeout ro))
  else backoff state ro.

(** Lines 122-157: the checks after the error code has been accepted. *)
Definition retry_checks (err : RequestError) (state : RetryState)
    (opts : DispatchOptions) : RetryDecision :=
  let ro := retryOptions opts in
  if match methods ro with
     | Some ms => negb (bool_decide (method opts ∈ ms))
     | None => false
     end
  then Fail
  else if match statusCode err, statusCodes ro with
          | Some sc, Some scs => negb (bool_decide (sc ∈ scs))
          | _, _ => false
          end
  then Fail
  else if maxRetries ro <? counter state
  then Fail
  else RetryAfter (retryTimeout err state ro).

(** Lines 75-158. *)
Definition retry (err : RequestError) (state : RetryState)
    (opts : DispatchOptions) : RetryDecision :=
  if from_option value false (noRetry opts) then Fail
  else
    let ro := retryOptions opts in
    match truthy_code (code err) with
    | Some c =>
        if negb (String.eqb c "UND_ERR_REQ_RETRY")
           && negb (bool_decide (c ∈ errorCodes ro))
        then
          if negb (String.eqb c "UND_ERR_CONNECT_TIMEOUT") then Fail
          else if no_origin (origin opts) then Fail
          else
            let pool := (origin_key <$> origin opts) ≫= (clients !!.) in
            let stats := stats_of pool in
            if no_connection stats then Fail
            else retry_checks err state opts
        else retry_checks err state opts
    | None => retry_checks err state opts
    end.

End Retry.

(** ** The connection limit of a pool *)

(** [typeof k === 'symbol' && k.description === 'connections'] *)
Definition is_connections (k : PropertyKey) : bool :=
  match k with
  | SymbolKey s => bool_decide (description s = Some "connections")
  | StringKey _ => false
  end.

(** [Object.defineProperty(o, k, p)]: an own property keeps its place, a new
    one is added after the others. *)
Fixpoint defineProperty (o : list (PropertyKey * Property))
    (k : PropertyKey) (p : Property) : list (PropertyKey * Property) :=
  match o with
  | [] => [(k, p)]
  | (k', p') :: rest =>
      if decide (k' = k) then (k, p) :: rest
      else (k', p') :: defineProperty rest k p
  end.

Fixpoint getOwnProperty (o : list (PropertyKey * Property))
    (k : PropertyKey) : option Property :=
  match o with
  | [] => None
  | (k', p) :: rest =>
      if decide (k' = k) then Some p else getOwnProperty rest k
  end.

(** Reading a property while the variable [maxConnection] holds [mc]: a
    getter is called, a data property gives its value. *)
Definition read (mc : Z) (p : Property) : PropertyValue :=
  match p with
  | Data v => v
  | Accessor Get_maxConnection => NumberValue mc
  end.

(** [this[kConnections]], the limit the pool consults before it opens one
    more connection. *)
Definition connections (mc : Z) (p : Pool) : option PropertyValue :=
  read mc <$> getOwnProperty (own p) (SymbolKey (kConnections p)).

(** Lines 56-63. *)
Definition patchIfPool (dispatcher : Dispatcher) : Dispatcher :=
  match dispatcher with
  | IsPool p =>
      let keys := fst <$> own p in
      match List.find is_connections keys with
      | Some kConnections' =>
          IsPool {| kConnections := kConnections p;
                    own := defineProperty (own p) kConnections'
                             (Accessor Get_maxConnection);
                    stats := stats p |}
      | None => dispatcher
      end
  | NotPool _ => dispatcher
  end.

(** The layout of an undici pool that [patchIfPool] relies on: the first own
    symbol described as 'connections' is the pool's own [kConnections]. *)
Definition undici_pool (p : Pool) : Prop :=
  List.find is_connections (fst <$> own p) = Some (SymbolKey (kConnections p)).

#[global] Instance undici_pool_dec p : Decision (undici_pool p).
Proof. unfold undici_pool. apply _. Defined.

(** [new Pool(origin, opts)] as undici builds it, with [opts.connections]
    stored under [kConnections] (or null). *)
Definition new_Pool (connections : option Z) : Pool :=
  let kConnections := {| sym_id := 3; description := Some "connections" |} in
  {| kConnections := kConnections;
     own := [ (StringKey "_events", Data Opaque);
              (SymbolKey {| sym_id := 1; description := Some "queue" |}, Data Opaque);
              (SymbolKey {| sym_id := 2; description := Some "clients" |}, Data Opaque);
              (SymbolKey kConnections,
               Data (from_option NumberValue Null connections));
              (SymbolKey {| sym_id := 4; description := Some "url" |}, Data Opaque);
              (SymbolKey {| sym_id := 5; description := Some "options" |}, Data Opaque);
              (SymbolKey {| sym_id := 6; description := Some "factory" |}, Data Opaque) ];
     stats := {| PoolStats.connected := 0; PoolStats.free := 0;
                 PoolStats.pending := 0; PoolStats.queued := 0;
                 PoolStats.running := 0; PoolStats.size := 0 |} |}.

(** ** Settings *)

(** Modelled from the spec: [ProxySettingController] of
    [./dispatchers/NetworkAgent], whose source is not part of this file.  It
    holds the enabled flag and the proxy URL; [setProxy] and
    [setProxyEnabled] mutate that state. *)
Module ProxySettingController.
Record t := { enabled : bool; url : option URL.t }.
Definition new : t := {| enabled := false; url := None |}.
Definition setProxy (u : URL.t) (c : t) : t :=
  {| enabled := enabled c; url := Some u |}.
Definition setProxyEnabled (e : bool) (c : t) : t :=
  {| enabled := e; url := url c |}.
End ProxySettingController.

(** Calls on the launcher application and its logger, in order. *)
Inductive Effect :=
| app_setProxy (proxy : string)
| logger_warn (message : string).

(** The variables the plugin closes over. *)
Record Plugin := {
  maxConnection : Z;
  proxyControl : ProxySettingController.t;
  effects : list Effect
}.

Record Settings := {
  maxSockets : Z;
  httpProxyEnabled : bool;
  httpProxy : string
}.

Definition plugin_start : Plugin :=
  {| maxConnection := 64;
     proxyControl := ProxySettingController.new;
     effects := [] |}.

Definition set_maxConnection (mc : Z) (st : Plugin) : Plugin :=
  {| maxConnection := mc;
     proxyControl := proxyControl st;
     effects := effects st |}.

Definition with_proxyControl
    (f : ProxySettingController.t -> ProxySettingController.t)
    (st : Plugin) : Plugin :=
  {| maxConnection := maxConnection st;
     proxyControl := f (proxyControl st);
     effects := effects st |}.

Definition perform (e : Effect) (st : Plugin) : Plugin :=
  {| maxConnection := maxConnection st;
     proxyControl := proxyControl st;
     effects := effects st ++ [e] |}.

(** Statements complete normally or throw. *)
Inductive Completion (A : Type) :=
| Normal (a : A)
| Throw (error : string).
Arguments Normal {A} a.
Arguments Throw {A} error.

Definition bind {A B} (c : Completion A) (k : A -> Completion B)
    : Completion B :=
  match c with
  | Normal a => k a
  | Throw e => Throw e
  end.

(** [try { body } catch (e) { handler }] *)
Definition try_catch {A} (body : Completion A)
    (handler : string -> Completion A) : Completion A :=
  match body with
  | Normal a => Normal a
  | Throw e => handler e
  end.

#[global] Instance Completion_bind : MBind Completion :=
  fun A B k c => bind c k.

(** The value of a statement that completed normally. *)
Definition completed {A} (c : Completion A) : option A :=
  match c with
  | Normal a => Some a
  | Throw _ => None
  end.

(** [a || b] on a string and a string that may be undefined. *)
Definition or_string (a : string) (b : option string) : option string :=
  if String.eqb a "" then b else Some a.

Definition truthy_string (s : option string) : option string :=
  match s with
  | Some p => if String.eqb p "" then None else Some p
  | None => None
  end.

Section Config.

(** The URL parser behind [new URL(p)]: [None] when it throws. *)
Variable parse_URL : string -> option URL.t.

(** [process.env.HTTPS_PROXY || process.env.https_proxy] *)
Variable globalProxyHttps : option string.

Definition new_URL (p : string) : Completion URL.t :=
  match parse_URL p with
  | Some u => Normal u
  | None => Throw "TypeError: Invalid URL"
  end.

Definition invalid_url_message (p : string) : string :=
  "Fail to set url as it's not a valid url " +:+ p.

(** Line 40. *)
Definition maxSocketsSet (val : Z) (st : Plugin) : Completion Plugin :=
  Normal (set_maxConnection (if 0 <? val then val else 64) st).

(** Lines 42-49. *)
Definition httpProxySet (p : string) (st : Plugin) : Completion Plugin :=
  let st := perform (app_setProxy p) st in
  try_catch
    (u ← new_URL p;
     Normal (with_proxyControl (ProxySettingController.setProxy u) st))
    (fun e => Normal (perform (logger_warn (invalid_url_message p)) st)).

(** Lines 50-53. *)
Definition httpProxyEnabledSet (state : Settings) (e : bool) (st : Plugin)
    : Completion Plugin :=
  let st :=
    with_proxyControl (ProxySettingController.setProxyEnabled e) st in
  Normal (perform
            (app_setProxy
               (if e
                then default "" (truthy_string
                                   (or_string (httpProxy state)
                                              globalProxyHttps))
                else ""))
            st).

(** Lines 26-37: what runs once the settings are available. *)
Definition on_settings (state : Settings) (st : Plugin)
    : Completion Plugin :=
  let st :=
    set_maxConnection
      (if 0 <? maxSockets state then maxSockets state else 64) st in
  let st :=
    with_proxyControl
      (ProxySettingController.setProxyEnabled (httpProxyEnabled state)) st in
  let proxy := or_string (httpProxy state) globalProxyHttps in
  match truthy_string proxy with
  | Some proxy =>
      try_catch
        (u ← new_URL proxy;
         Normal (perform (app_setProxy proxy)
                   (with_proxyControl
                      (ProxySettingController.setProxy u) st)))
        (fun e =>
           Normal (perform (logger_warn (invalid_url_message proxy)) st))
  | None => Normal st
  end.

(** The notifications of the settings state. *)
Inductive Notification :=
| MaxSocketsSet (val : Z)
| HttpProxySet (p : string)
| HttpProxyEnabledSet (state : Settings) (e : bool).

Definition notify (n : Notification) (st : Plugin) : Completion Plugin :=
  match n with
  | MaxSocketsSet val => maxSocketsSet val st
  | HttpProxySet p => httpProxySet p st
  | HttpProxyEnabledSet state e => httpProxyEnabledSet state e st
  end.

Fixpoint notify_all (ns : list Notification) (st : Plugin)
    : Completion Plugin :=
  match ns with
  | [] => Normal st
  | n :: rest => st' ← notify n st; notify_all rest st'
  end.

End Config.

(** ** The agent and the event loop *)

(** Calls made on dispatchers, in order. *)
Inductive Call :=
| close (d : Dispatcher)
| destroy (d : Dispatcher).

(** The part of the download agent the plugin touches: the shared
    [kClients] map and the calls made so far. *)
Record Agent := {
  kClients : gmap string Dispatcher;
  calls : list Call
}.

(** Lines 212-229: the check a drain event schedules, run on the agent as
    it is when the timer fires. *)
Definition reap (origin : string) (a : Agent) : Agent :=
  let clients := kClients a in
  let pool := clients !! origin in
  match pool with
  | Some (IsPool p) =>
      let stats := Some (stats p) in
      if no_connection stats
      then {| kClients := delete origin clients;
              calls := calls a ++ [close (IsPool p)] |}
      else a
  | _ =>
      let running :=
        match pool with
        | Some (NotPool kRunning) => kRunning
        | _ => JS.Undefined
        end in
      if JS.is_number_zero running
      then {| kClients := delete origin clients;
              calls := calls a ++ from_option (fun d => [close d]) [] pool |}
      else a
  end.

(** The loop: a clock in milliseconds, the pending reaper timers with their
    due times, oldest first, and the agent. *)
Record Loop := {
  clock : Z;
  timers : list (Z * string);
  agent : Agent
}.

(** Lines 210-231: the [drain] listener arms a timer of 60 000 ms. *)
Definition on_drain (url : URL.t) (l : Loop) : Loop :=
  {| clock := clock l;
     timers := timers l ++ [(clock l + 60000, URL.origin url)];
     agent := agent l |}.

(** Timers that are due run in the order they were armed. *)
Fixpoint run_timers (now : Z) (ts : list (Z * string)) (a : Agent)
    : list (Z * string) * Agent :=
  match ts with
  | [] => ([], a)
  | (due, origin) :: rest =>
      if due <=? now
      then run_timers now rest (reap origin a)
      else let '(rest', a') := run_timers now rest a in
           ((due, origin) :: rest', a')
  end.

Definition elapse (ms : Z) (l : Loop) : Loop :=
  let now := clock l + ms in
  let '(ts, a) := run_timers now (timers l) (agent l) in
  {| clock := now; timers := ts; agent := a |}.

(** Requests served in between change the map and the statistics in it. *)
Definition activity (f : gmap string Dispatcher -> gmap string Dispatcher)
    (l : Loop) : Loop :=
  {| clock := clock l;
     timers := timers l;
     agent := {| kClients := f (kClients (agent l));
                 calls := calls (agent l) |} |}.

Inductive Event :=
| Drain (url : URL.t)
| Elapse (ms : Z)
| Activity (f : gmap string Dispatcher -> gmap string Dispatcher).

Definition step (e : Event) (l : Loop) : Loop :=
  match e with
  | Drain url => on_drain url l
  | Elapse ms => elapse ms l
  | Activity f => activity f l
  end.

Definition run (es : list Event) (l : Loop) : Loop :=
  foldl (fun l e => step e l) l es.

(** ** [destroyPool] *)

(** How a promise returned by a dispatcher settles, and how many
    milliseconds after the call. *)
Inductive Settles :=
| Fulfils (ms : Z)
| Rejects (ms : Z)
| Never.

(** What the environment decides during one call of [destroyPool]: how
    [close()] and [destroy()] settle, and what other tasks do to the shared
    map while the call is suspended. *)
Record Environment := {
  close_settles : Settles;
  destroy_settles : Settles;
  meanwhile : gmap string Dispatcher -> gmap string Dispatcher
}.

(** How an [async] function ends. *)
Inductive Async (A : Type) :=
| Returns (a : A)
| Throws (a : A)
| Suspended (a : A).
Arguments Returns {A} a.
Arguments Throws {A} a.
Arguments Suspended {A} a.

(** [Promise.race([pool?.close().then(() => true),
                   timeout(500).then(() => false)])]:
    a close that settles before the 500 ms timer wins the race. *)
Definition race (pool : option Dispatcher) (e : Environment)
    : Completion (option bool) :=
  match pool with
  | None => Normal None
  | Some _ =>
      match close_settles e with
      | Fulfils ms => Normal (Some (ms <? 500))
      | Rejects ms => if ms <? 500 then Throw "close" else Normal (Some false)
      | Never => Normal (Some false)
      end
  end.

(** Lines 235-243. *)
Definition destroyPool (origin : string) (e : Environment) (a : Agent)
    : Async Agent :=
  let clients := kClients a in
  let pool := clients !! origin in
  let a := {| kClients := meanwhile e clients;
              calls := calls a ++ from_option (fun d => [close d]) [] pool |} in
  let finish (a : Agent) :=
    Returns {| kClients := delete origin (kClients a); calls := calls a |} in
  match race pool e with
  | Throw _ => Throws a
  | Normal closed =>
      if negb (default false closed) then
        match pool with
        | Some d =>
            let a := {| kClients := kClients a;
                        calls := calls a ++ [destroy d] |} in
            match destroy_settles e with
            | Fulfils _ => finish a
            | Rejects _ => Throws a
            | Never => Suspended a
            end
        | None => finish a
        end
      else finish a
  end.

(** The agent a call of an [async] function leaves behind, however the
    call ends. *)
Definition outcome {A} (r : Async A) : A :=
  match r with
  | Returns a | Throws a | Suspended a => a
  end.

(** ** Status and range policy *)

(** Lines 191-208: the statistics of every dispatcher of the agent that is
    a pool, keyed like the agent's map. *)
Definition getAgentStatus (clients : gmap string Dispatcher)
    : gmap string PoolStats.t :=
  foldl
    (fun result '(k, v) =>
       match v with
       | IsPool p =>
           let connected := PoolStats.connected (stats p) in
           let free := PoolStats.free (stats p) in
           let pending := PoolStats.pending (stats p) in
           let queued := PoolStats.queued (stats p) in
           let running := PoolStats.running (stats p) in
           let size := PoolStats.size (stats p) in
           let status :=
             {| PoolStats.connected := connected; PoolStats.free := free;
                PoolStats.pending := pending; PoolStats.queued := queued;
                PoolStats.running := running; PoolStats.size := size |} in
           <[k := status]> result
       | NotPool _ => result
       end)
    ∅ (map_to_list clients).

(** Lines 173-177: [Math.max(maxConnection / 4, 4)], read when the range
    policy is asked. *)
Definition getConcurrency (st : Plugin) : Q :=
  Qmax (inject_Z (maxConnection st) / 4) 4.

(** ** The market list component

    The script of the component that follows the plugin in the source:
    the selected item, the ids derived from it, and the handlers of clicks
    and keys.  An item of the list is a string, an object without [id], or
    an object with an [id], of which the fields read here are kept. *)

Module ProjectEntry.
Record t := {
  id : string;
  installed_length : nat;                (* installed.length *)
  modrinthProjectId : option string;
  modrinth_project_id : option string;   (* modrinth?.project_id *)
  curseforgeProjectId : option Z;
  curseforge_id : option Z               (* curseforge?.id *)
}.
End ProjectEntry.

Inductive Item :=
| Text (s : string)
| Group
| Entry (e : ProjectEntry.t).

Record Props := {
  items : list Item;
  selectionMode : bool
}.

Inductive Emitted :=
| preventDefault
| stopPropagation
| update_selectionMode (v : bool).

(** [selectedId.value], [selections.value] and what has been emitted. *)
Record View := {
  selectedId : option string;
  selections : gmap string bool;
  emitted : list Emitted
}.

Record MouseEvent := { ctrlKey : bool; shiftKey : bool }.


(** [typeof item === 'object' && 'id' in item && item.id === id] *)
Definition has_id (id : option string) (item : Item) : bool :=
  match item, id with
  | Entry e, Some id => String.eqb (ProjectEntry.id e) id
  | _, _ => false
  end.

Definition as_entry (item : Item) : option ProjectEntry.t :=
  match item with
  | Entry e => Some e
  | _ => None
  end.

Definition selectedItem (props : Props) (v : View)
    : option ProjectEntry.t :=
  match truthy_string (selectedId v) with
  | None => None
  | Some _ => List.find (has_id (selectedId v)) (items props) ≫= as_entry
  end.

(** The watcher of [props.items]. *)
Definition watch_items (i : list Item) (old : option (list Item)) (v : View)
    : View :=
  match old with
  | Some (_ :: _) => v
  | _ =>
      match i with
      | Entry first :: _ =>
          {| selectedId := Some (ProjectEntry.id first);
             selections := selections v;
             emitted := emitted v |}
      | _ => v
      end
  end.

(** [s.substring(n)] *)
Definition substring_from (n : nat) (s : string) : string :=
  String.substring n (String.length s - n) s.

(** [a || b] on strings that may be undefined. *)
Definition or_else (a b : option string) : option string :=
  match truthy_string a with
  | Some s => Some s
  | None => b
  end.

Definition selectedModrinthId (props : Props) (v : View) : string :=
  let id := selectedId v in
  match truthy_string id with
  | Some id' =>
      if String.prefix "modrinth:" id'
      then substring_from (String.length "modrinth:") id'
      else
        let item := selectedItem props v in
        default "" (truthy_string
                      (or_else (item ≫= ProjectEntry.modrinthProjectId)
                               (item ≫= ProjectEntry.modrinth_project_id)))
  | None =>
      let item := selectedItem props v in
      default "" (truthy_string
                    (or_else (item ≫= ProjectEntry.modrinthProjectId)
                             (item ≫= ProjectEntry.modrinth_project_id)))
  end.

(** A number that may be undefined, when it is truthy. *)
Definition truthy_Z (n : option Z) : option Z :=
  match n with
  | Some z => if z =? 0 then None else Some z
  | None => None
  end.

Definition selectedCurseforgeId (StringToNumber : string -> JS.number)
    (props : Props) (v : View) : JS.value :=
  let id := selectedId v in
  let from_item :=
    let item := selectedItem props v in
    match truthy_Z (item ≫= ProjectEntry.curseforgeProjectId) with
    | Some z => JS.Num (JS.of_Z z)
    | None =>
        match truthy_Z (item ≫= ProjectEntry.curseforge_id) with
        | Some z => JS.Num (JS.of_Z z)
        | None => JS.Undefined
        end
    end in
  match truthy_string id with
  | Some id' =>
      if String.prefix "curseforge:" id'
      then JS.Num (StringToNumber
                     (substring_from (String.length "curseforge:") id'))
      else from_item
  | None => from_item
  end.

(** [list.findIndex(P)], -1 when nothing is found. *)
Fixpoint findIndex_from (P : Item -> bool) (l : list Item) (n : Z) : Z :=
  match l with
  | [] => -1
  | x :: rest => if P x then n else findIndex_from P rest (n + 1)
  end.

Definition findIndex (P : Item -> bool) (l : list Item) : Z :=
  findIndex_from P l 0.

(** [list[i]], undefined outside the list. *)
Definition at_index (l : list Item) (i : Z) : option Item :=
  if i <? 0 then None else l !! Z.to_nat i.

(** The loop of the shift-click: [for (let i = start; i <= end; i++)]. *)
Definition select_range (list : list Item) (start end_ : Z)
    : gmap string bool :=
  foldl
    (fun _selections i =>
       match at_index list i with
       | Some (Entry item) => <[ProjectEntry.id item := true]> _selections
       | _ => _selections
       end)
    ∅ (seqZ start (end_ - start + 1)).

Definition onSelect (props : Props) (event : MouseEvent)
    (i : ProjectEntry.t) (v : View) : View :=
  if selectionMode props && (0 <? ProjectEntry.installed_length i)%nat then
    if ctrlKey event then
      {| selectedId := selectedId v;
         selections :=
           <[ProjectEntry.id i :=
               negb (default false (selections v !! ProjectEntry.id i))]>
             (selections v);
         emitted := emitted v |}
    else if shiftKey event then
      let list := items props in
      let lastIndex := findIndex (has_id (selectedId v)) list in
      let currentIndex :=
        findIndex (has_id (Some (ProjectEntry.id i))) list in
      let start := Z.min lastIndex currentIndex in
      let end_ := Z.max lastIndex currentIndex in
      {| selectedId := selectedId v;
         selections := select_range list start end_;
         emitted := emitted v |}
    else
      {| selectedId := Some (ProjectEntry.id i);
         selections := {[ ProjectEntry.id i := true ]};
         emitted := emitted v |}
  else
    {| selectedId := Some (ProjectEntry.id i);
       selections := ∅;
       emitted := emitted v |}.



(** The [checked] binding of the template:
    [typeof item === 'string' ? false : (selections[item.id] || false)]. *)
Definition checked (v : View) (item : Item) : bool :=
  match item with
  | Text _ => false
  | Group => default false (selections v !! "undefined")
  | Entry e => default false (selections v !! ProjectEntry.id e)
  end.

(** ** Sample inputs

    Concrete requests, pools and settings on which the model is run. *)

Definition sample_retryOptions : RetryOptions :=
  {| maxRetries := 5;
     minTimeout := 100;
     maxTimeout := 100000;
     timeoutFactor := 2;
     statusCodes := Some [429; 500; 502; 503; 504];
     errorCodes := ["ECONNRESET"; "ECONNREFUSED"; "ENOTFOUND"; "EPIPE"];
     methods := Some ["GET"; "HEAD"; "OPTIONS"; "PUT"; "DELETE"; "TRACE"] |}.

Definition sample_origin : string := "https://piston-data.mojang.com".

Definition sample_opts : DispatchOptions :=
  {| noRetry := None;
     method := "GET";
     origin := Some (OriginString sample_origin);
     retryOptions := sample_retryOptions |}.

(** A 503 response with the given [retry-after] header, if any. *)
Definition sample_503 (retry_after : option string) : RequestError :=
  {| statusCode := Some 503;
     code := None;
     headers := Some (from_option (fun s => {[ "retry-after" := s ]}) ∅
                        retry_after) |}.

Definition sample_connect_timeout : RequestError :=
  {| statusCode := None;
     code := Some "UND_ERR_CONNECT_TIMEOUT";
     headers := None |}.

(** 2015-10-21T07:28:00Z in milliseconds since the epoch. *)
Definition sample_now : Z := 1445412480000.

Definition sample_stats (running : nat) : PoolStats.t :=
  {| PoolStats.connected := 0; PoolStats.free := 0; PoolStats.pending := 0;
     PoolStats.queued := 0; PoolStats.running := running;
     PoolStats.size := 0 |}.

Definition sample_pool (running : nat) : Pool :=
  {| kConnections := kConnections (new_Pool None);
     own := own (new_Pool None);
     stats := sample_stats running |}.

Definition sample_clients (running : nat) : gmap string Dispatcher :=
  {[ sample_origin := IsPool (sample_pool running) ]}.

(** The URL parser on the two strings used below: a proxy URL, and a string
    that is no URL. *)
Definition sample_parse_URL (p : string) : option URL.t :=
  if String.eqb p "http://127.0.0.1:7890"
  then Some {| URL.href := "http://127.0.0.1:7890/";
               URL.origin := "http://127.0.0.1:7890" |}
  else None.

Definition sample_settings (maxSockets : Z) : Settings :=
  {| maxSockets := maxSockets;
     httpProxyEnabled := true;
     httpProxy := "http://127.0.0.1:7890" |}.

(** The plugin once [sample_settings 16] has been applied. *)
Definition sample_plugin : Plugin :=
  default plugin_start
    (completed (on_settings sample_parse_URL None (sample_settings 16)
                  plugin_start)).

Definition sample_url : URL.t :=
  {| URL.href := "https://piston-data.mojang.com/v1/objects/client.jar";
     URL.origin := sample_origin |}.

(** A loop at 5 s with the pool of [sample_origin] and nothing pending. *)
Definition sample_loop (running : nat) : Loop :=
  {| clock := 5000;
     timers := [];
     agent := {| kClients := sample_clients running; calls := [] |} |}.

(** A request arrives: the pool of [sample_origin] gets one running
    request. *)
Definition sample_request (clients : gmap string Dispatcher)
    : gmap string Dispatcher :=
  <[sample_origin := IsPool (sample_pool 1)]> clients.

Definition sample_environment (close_settles : Settles) : Environment :=
  {| close_settles := close_settles;
     destroy_settles := Fulfils 1;
     meanwhile := id |}.

Definition sample_entry (id : string) (installed : nat) : ProjectEntry.t :=
  {| ProjectEntry.id := id;
     ProjectEntry.installed_length := installed;
     ProjectEntry.modrinthProjectId := None;
     ProjectEntry.modrinth_project_id := None;
     ProjectEntry.curseforgeProjectId := None;
     ProjectEntry.curseforge_id := None |}.

(** A list with a header, three installed mods and one that is not. *)
Definition sample_props : Props :=
  {| items := [Text "Installed"; Entry (sample_entry "sodium" 1);
               Entry (sample_entry "lithium" 1); Group;
               Entry (sample_entry "iris" 0);
               Entry (sample_entry "fabric-api" 2)];
     selectionMode := true |}.

Definition sample_view (selectedId : option string) : View :=
  {| selectedId := selectedId; selections := ∅; emitted := [] |}.

(** * Properties *)

(** ** Numbers *)

Lemma gt_Math_min_r (x : JS.number) (m : Q) :
  JS.gt (JS.Math_min x (JS.Fin m)) (JS.Fin m) = false.
Proof.
  destruct x as [|[]|a]; simpl; try reflexivity.
  - apply negb_false_iff, Qle_bool_iff, Qle_refl.
  - apply negb_false_iff, Qle_bool_iff, Q.le_min_r.
Qed.

Lemma gt_zero_nonpositive (d : Q) :
  (d <= 0)%Q -> JS.gt (JS.Fin d) (JS.of_Z 0) = false.
Proof.
  intros Hd. simpl. apply negb_false_iff, Qle_bool_iff. exact Hd.
Qed.

(** ** The retry callback *)

Section RetryFacts.

Variable StringToNumber : string -> JS.number.
Variable clients : gmap string Dispatcher.
Variable now : Z.
Variable mul : JS.number -> JS.number -> JS.number.
Variable pow : Q -> Z -> JS.number.

Local Abbreviation retry' := (retry StringToNumber clients now mul pow).
Local Abbreviation retry_checks' := (retry_checks StringToNumber now mul pow).
Local Abbreviation retryTimeout' := (retryTimeout StringToNumber now mul pow).
Local Abbreviation retryAfterHeader' :=
  (retryAfterHeader StringToNumber now mul).

(** Every path through the error-code gate either gives up or goes on
    with the later checks. *)
Lemma retry_cases err state opts :
  retry' err state opts = Fail
  ∨ retry' err state opts = retry_checks' err state opts.
Proof.
  unfold retry. repeat case_match; auto.
Qed.

Lemma retry_checks_cases err state opts :
  retry_checks' err state opts = Fail
  ∨ retry_checks' err state opts
    = RetryAfter (retryTimeout' err state (retryOptions opts)).
Proof.
  unfold retry_checks. repeat case_match; auto.
Qed.

(** A retry is only ever scheduled with the timeout of lines 152-155. *)
Lemma retry_RetryAfter err state opts w :
  retry' err state opts = RetryAfter w ->
  w = retryTimeout' err state (retryOptions opts).
Proof.
  intros H.
  destruct (retry_cases err state opts) as [E|E]; rewrite E in H;
    [discriminate|].
  destruct (retry_checks_cases err state opts) as [E'|E']; rewrite E' in H;
    congruence.
Qed.

Lemma retry_checks_exhausted err state opts :
  maxRetries (retryOptions opts) < counter state ->
  retry_checks' err state opts = Fail.
Proof.
  intros H. apply Z.ltb_lt in H.
  unfold retry_checks. rewrite H. repeat case_match; reflexivity.
Qed.

Lemma retryAfterHeader_absent err :
  headers err ≫= lookup "retry-after" = None ->
  retryAfterHeader' err = JS.Undefined.
Proof.
  intros H. unfold retryAfterHeader. rewrite H. reflexivity.
Qed.

(** A header that is not a number reaches [calculateRetryAfterHeader] as
    [NaN], never as the header's text, and comes back as [NaN]. *)
Lemma retryAfterHeader_not_numeric err s :
  headers err ≫= lookup "retry-after" = Some s ->
  s ≠ "" ->
  StringToNumber s = JS.NaN ->
  retryAfterHeader' err = JS.Num JS.NaN.
Proof.
  intros H Hs Hnan. unfold retryAfterHeader. rewrite H. simpl.
  destruct (String.eqb_spec s "") as [->|_]; [done|]. simpl.
  rewrite Hnan. reflexivity.
Qed.

Lemma retryTimeout_backoff err state ro :
  JS.gt (Number StringToNumber (retryAfterHeader' err)) (JS.of_Z 0) = false ->
  retryTimeout' err state ro = backoff mul pow state ro.
Proof.
  intros H. unfold retryTimeout. rewrite H. reflexivity.
Qed.

End RetryFacts.

Lemma no_connection_Some s :
  no_connection (Some s) = true
  <-> (PoolStats.connected s = 0 ∧ PoolStats.pending s = 0
       ∧ PoolStats.running s = 0 ∧ PoolStats.queued s = 0
       ∧ PoolStats.free s = 0)%nat.
Proof.
  unfold no_connection. destruct s as [c f p q r sz]. simpl.
  rewrite !andb_true_iff.
  destruct c, f, p, q, r; simpl; intuition (discriminate || lia).
Qed.

Lemma no_connection_busy s :
  (PoolStats.connected s ≠ 0 ∨ PoolStats.pending s ≠ 0
   ∨ PoolStats.running s ≠ 0 ∨ PoolStats.queued s ≠ 0
   ∨ PoolStats.free s ≠ 0)%nat ->
  no_connection (Some s) = false.
Proof.
  intros H. apply not_true_is_false. rewrite no_connection_Some. lia.
Qed.

(** The gate of lines 96-120 for a connect-timeout code that is not in
    [errorCodes]: what is left of [retry] once the code is known. *)
Lemma retry_connect_timeout StringToNumber clients now mul pow err state opts :
  code err = Some "UND_ERR_CONNECT_TIMEOUT" ->
  "UND_ERR_CONNECT_TIMEOUT" ∉ errorCodes (retryOptions opts) ->
  retry StringToNumber clients now mul pow err state opts
  = if from_option value false (noRetry opts) then Fail
    else if no_origin (origin opts) then Fail
    else if no_connection
              (stats_of ((origin_key <$> origin opts) ≫= (clients !!.)))
    then Fail
    else retry_checks StringToNumber now mul pow err state opts.
Proof.
  intros Hcode Hnotin. unfold retry. rewrite Hcode. simpl.
  rewrite (bool_decide_eq_false_2 _ Hnotin). reflexivity.
Qed.

(** C6. Once the attempt counter is above [maxRetries] (so in particular
    when it is [maxRetries + 1]) the callback gives up: it calls [cb(err)]
    and schedules nothing, whatever the status code, the error code, the
    headers, the method and the pools are. *)
Theorem retry_budget_exhausted
    StringToNumber clients now mul pow err state opts :
  maxRetries (retryOptions opts) < counter state ->
  retry StringToNumber clients now mul pow err state opts = Fail.
Proof.
  intros H.
  destruct (retry_cases StringToNumber clients now mul pow err state opts) as [E|E];
    rewrite E; [reflexivity|].
  by apply retry_checks_exhausted.
Qed.

(** C10. A connect-timeout code that is not in [errorCodes], on a request
    whose options carry no origin, makes the callback give up at once, and
    that whatever the pools of the agent are: none is looked at. *)
Theorem connect_timeout_without_origin
    StringToNumber now mul pow err state opts :
  code err = Some "UND_ERR_CONNECT_TIMEOUT" ->
  "UND_ERR_CONNECT_TIMEOUT" ∉ errorCodes (retryOptions opts) ->
  origin opts = None ->
  ∀ clients : gmap string Dispatcher,
    retry StringToNumber clients now mul pow err state opts = Fail.
Proof.
  intros Hcode Hnotin Horigin clients.
  rewrite retry_connect_timeout by assumption.
  rewrite Horigin. simpl. by destruct (from_option value false (noRetry opts)).
Qed.

(** C3. A connect-timeout code that is not in [errorCodes], on a request
    with an origin: when the pool of that origin has a nonzero count among
    connected, pending, running, queued and free, the callback goes on with
    the method, status and budget checks (unless the request was marked as
    not to be retried); when the five counts are zero, or the origin has no
    pool, it gives up at once. *)
Theorem connect_timeout_gate
    StringToNumber clients now mul pow err state opts :
  code err = Some "UND_ERR_CONNECT_TIMEOUT" ->
  "UND_ERR_CONNECT_TIMEOUT" ∉ errorCodes (retryOptions opts) ->
  ∀ o, origin opts = Some o -> origin_key o ≠ "" ->
  (∀ p,
     clients !! origin_key o = Some (IsPool p) ->
     (PoolStats.connected (stats p) ≠ 0 ∨ PoolStats.pending (stats p) ≠ 0
      ∨ PoolStats.running (stats p) ≠ 0 ∨ PoolStats.queued (stats p) ≠ 0
      ∨ PoolStats.free (stats p) ≠ 0)%nat ->
     (∀ nr, noRetry opts = Some nr -> value nr = false) ->
     retry StringToNumber clients now mul pow err state opts
     = retry_checks StringToNumber now mul pow err state opts)
  ∧ (∀ p,
       clients !! origin_key o = Some (IsPool p) ->
       (PoolStats.connected (stats p) = 0 ∧ PoolStats.pending (stats p) = 0
        ∧ PoolStats.running (stats p) = 0 ∧ PoolStats.queued (stats p) = 0
        ∧ PoolStats.free (stats p) = 0)%nat ->
       retry StringToNumber clients now mul pow err state opts = Fail)
  ∧ (clients !! origin_key o = None ->
     retry StringToNumber clients now mul pow err state opts = Fail).
Proof.
  intros Hcode Hnotin o Horigin Hkey.
  rewrite retry_connect_timeout by assumption. rewrite Horigin.
  assert (no_origin (Some o) = false) as ->.
  { destruct o as [s|u]; simpl; [|reflexivity].
    simpl in Hkey. by apply String.eqb_neq. }
  simpl. split; [|split].
  - intros p Hp Hbusy Hnr. rewrite Hp. simpl.
    rewrite (no_connection_busy _ Hbusy).
    destruct (noRetry opts) as [nr|]; simpl; [|reflexivity].
    by rewrite (Hnr nr eq_refl).
  - intros p Hp Hidle. rewrite Hp. simpl.
    apply no_connection_Some in Hidle. rewrite Hidle.
    by destruct (from_option value false (noRetry opts)).
  - intros Hnone. rewrite Hnone. simpl.
    by destruct (from_option value false (noRetry opts)).
Qed.

(** C10 at a request without origin, with and without pools around. *)
Lemma connect_timeout_without_origin_witness :
  retry JS.decimal_StringToNumber (sample_clients 1) sample_now JS.exact_mul JS.exact_pow
    sample_connect_timeout {| counter := 1 |}
    {| noRetry := None; method := "GET"; origin := None;
       retryOptions := sample_retryOptions |} = Fail.
Proof.
  apply (connect_timeout_without_origin JS.decimal_StringToNumber sample_now JS.exact_mul JS.exact_pow
           sample_connect_timeout {| counter := 1 |}
           {| noRetry := None; method := "GET"; origin := None;
              retryOptions := sample_retryOptions |}).
  - reflexivity.
  - apply (bool_decide_eq_false_1 _). reflexivity.
  - reflexivity.
Defined.

(** C6 at [counter = maxRetries + 1] on an otherwise retryable 503. *)
Lemma retry_budget_exhausted_witness :
  retry JS.decimal_StringToNumber ∅ sample_now JS.exact_mul JS.exact_pow (sample_503 (Some "5"))
    {| counter := 6 |} sample_opts = Fail.
Proof.
  apply (retry_budget_exhausted JS.decimal_StringToNumber ∅ sample_now JS.exact_mul JS.exact_pow
           (sample_503 (Some "5")) {| counter := 6 |} sample_opts).
  simpl. lia.
Defined.

(** C3 on the origin of the sample request: a pool with [running = 1] and
    the other counts zero lets the retry go on, and it is scheduled; a pool
    with all counts zero, or no pool, makes it fail. *)
Lemma connect_timeout_gate_witness :
  retry JS.decimal_StringToNumber (sample_clients 1) sample_now JS.exact_mul JS.exact_pow
    sample_connect_timeout {| counter := 1 |} sample_opts
  = RetryAfter (JS.of_Z 100)
  ∧ retry JS.decimal_StringToNumber (sample_clients 0) sample_now JS.exact_mul JS.exact_pow
      sample_connect_timeout {| counter := 1 |} sample_opts = Fail
  ∧ retry JS.decimal_StringToNumber ∅ sample_now JS.exact_mul JS.exact_pow
      sample_connect_timeout {| counter := 1 |} sample_opts = Fail.
Proof.
  assert (Hnotin : "UND_ERR_CONNECT_TIMEOUT"
                   ∉ errorCodes (retryOptions sample_opts)).
  { apply (bool_decide_eq_false_1 _). reflexivity. }
  assert (Hkey : origin_key (OriginString sample_origin) ≠ "") by done.
  split; [|split].
  - rewrite (proj1 (connect_timeout_gate JS.decimal_StringToNumber
                      (sample_clients 1) sample_now JS.exact_mul JS.exact_pow sample_connect_timeout
                      {| counter := 1 |} sample_opts eq_refl Hnotin
                      (OriginString sample_origin) eq_refl Hkey)
               (sample_pool 1)).
    + vm_compute. reflexivity.
    + reflexivity.
    + simpl. lia.
    + intros nr Hnr. discriminate Hnr.
  - apply (proj1 (proj2 (connect_timeout_gate JS.decimal_StringToNumber
                           (sample_clients 0) sample_now JS.exact_mul JS.exact_pow
                           sample_connect_timeout {| counter := 1 |}
                           sample_opts eq_refl Hnotin
                           (OriginString sample_origin) eq_refl Hkey))
             (sample_pool 0)).
    + reflexivity.
    + simpl. lia.
  - apply (proj2 (proj2 (connect_timeout_gate JS.decimal_StringToNumber
                           ∅ sample_now JS.exact_mul JS.exact_pow sample_connect_timeout
                           {| counter := 1 |} sample_opts eq_refl Hnotin
                           (OriginString sample_origin) eq_refl Hkey))).
    reflexivity.
Defined.

(** C5. When a retry is scheduled and the response has no [retry-after]
    header, or the delay computed from the header is zero or negative, the
    timeout is [Math.min(minTimeout * timeoutFactor ** (counter - 1),
    maxTimeout)], the product and the power being those of doubles, and it
    is never above [maxTimeout]. *)
Theorem backoff_without_positive_retry_after
    StringToNumber clients now mul pow err state opts w :
  headers err ≫= lookup "retry-after" = None
  ∨ (∃ d : Q, retryAfterHeader StringToNumber now mul err = JS.Num (JS.Fin d)
              ∧ (d <= 0)%Q) ->
  retry StringToNumber clients now mul pow err state opts = RetryAfter w ->
  let ro := retryOptions opts in
  w = JS.Math_min
        (mul (JS.Fin (minTimeout ro))
             (pow (timeoutFactor ro) (counter state - 1)))
        (JS.Fin (maxTimeout ro))
  ∧ JS.gt w (JS.Fin (maxTimeout ro)) = false.
Proof.
  intros Hheader Hretry ro.
  apply retry_RetryAfter in Hretry. fold ro in Hretry.
  rewrite retryTimeout_backoff in Hretry.
  - subst w. unfold backoff. split; [reflexivity | apply gt_Math_min_r].
  - destruct Hheader as [Hnone|(d & Hd & Hle)].
    + rewrite retryAfterHeader_absent by assumption. reflexivity.
    + rewrite Hd. simpl Number. by apply gt_zero_nonpositive.
Qed.

(** C5 at minTimeout = 100, timeoutFactor = 2, counter = 3 and
    maxTimeout = 100000, where [2 ** 2] and [100 * 4] are exact: 400 ms,
    both without header and with the header [retry-after: 0]. *)
Lemma backoff_without_positive_retry_after_witness :
  (retry JS.decimal_StringToNumber ∅ sample_now JS.exact_mul JS.exact_pow
     (sample_503 None) {| counter := 3 |} sample_opts
   = RetryAfter (JS.of_Z 400)
   ∧ JS.gt (JS.of_Z 400) (JS.Fin (maxTimeout sample_retryOptions)) = false)
  ∧ (retry JS.decimal_StringToNumber ∅ sample_now JS.exact_mul JS.exact_pow
       (sample_503 (Some "0")) {| counter := 3 |} sample_opts
     = RetryAfter (JS.of_Z 400)
     ∧ JS.of_Z 400
       = JS.Math_min
           (JS.exact_mul (JS.Fin (minTimeout sample_retryOptions))
              (JS.exact_pow (timeoutFactor sample_retryOptions) (3 - 1)))
           (JS.Fin (maxTimeout sample_retryOptions))).
Proof.
  split; (split; [reflexivity|]).
  - apply (backoff_without_positive_retry_after
             JS.decimal_StringToNumber ∅ sample_now JS.exact_mul JS.exact_pow
             (sample_503 None) {| counter := 3 |} sample_opts (JS.of_Z 400)
             (or_introl eq_refl) eq_refl).
  - apply (backoff_without_positive_retry_after
             JS.decimal_StringToNumber ∅ sample_now JS.exact_mul JS.exact_pow
             (sample_503 (Some "0")) {| counter := 3 |} sample_opts
             (JS.of_Z 400)).
    + right. exists (0 * 1000)%Q. split; [reflexivity | discriminate].
    + reflexivity.
Defined.

(** A numeric header is read as seconds: [retry-after: 5] under
    maxTimeout = 100000 waits 5000 ms, and the wait is capped by
    [maxTimeout]. *)
Example retry_after_seconds :
  retry JS.decimal_StringToNumber ∅ sample_now JS.exact_mul JS.exact_pow (sample_503 (Some "5"))
    {| counter := 1 |} sample_opts = RetryAfter (JS.of_Z 5000)
  ∧ retry JS.decimal_StringToNumber ∅ sample_now JS.exact_mul JS.exact_pow (sample_503 (Some "3600"))
      {| counter := 1 |} sample_opts = RetryAfter (JS.of_Z 100000).
Proof. split; reflexivity. Qed.

(** C1. What the code does with a [retry-after] header that is not a
    number: the header's text never reaches the date computation, the
    computed delay is [NaN] whatever the date and the clock are, and the
    retry is scheduled with the exponential backoff. *)
Theorem retry_after_date_is_ignored
    StringToNumber clients now mul pow err state opts s w :
  headers err ≫= lookup "retry-after" = Some s ->
  s ≠ "" ->
  StringToNumber s = JS.NaN ->
  retry StringToNumber clients now mul pow err state opts = RetryAfter w ->
  retryAfterHeader StringToNumber now mul err = JS.Num JS.NaN
  ∧ w = backoff mul pow state (retryOptions opts).
Proof.
  intros Hs Hne Hnan Hretry.
  pose proof (retryAfterHeader_not_numeric StringToNumber now mul err s
                Hs Hne Hnan) as Hh.
  split; [exact Hh|].
  apply retry_RetryAfter in Hretry. subst w.
  apply retryTimeout_backoff. rewrite Hh. reflexivity.
Qed.

(** C1 at a date two seconds after the clock: with minTimeout = 100,
    timeoutFactor = 2 and counter = 3 the retry waits the 400 ms of the
    backoff, not 2000 ms. *)
Lemma retry_after_date_is_ignored_witness :
  retry JS.decimal_StringToNumber ∅ sample_now JS.exact_mul JS.exact_pow
    (sample_503 (Some "Wed, 21 Oct 2015 07:28:02 GMT"))
    {| counter := 3 |} sample_opts = RetryAfter (JS.of_Z 400)
  ∧ retryAfterHeader JS.decimal_StringToNumber sample_now JS.exact_mul
      (sample_503 (Some "Wed, 21 Oct 2015 07:28:02 GMT")) = JS.Num JS.NaN
  ∧ JS.of_Z 400
    = backoff JS.exact_mul JS.exact_pow {| counter := 3 |}
        sample_retryOptions.
Proof.
  split; [reflexivity|].
  apply (retry_after_date_is_ignored JS.decimal_StringToNumber ∅
           sample_now JS.exact_mul JS.exact_pow (sample_503 (Some "Wed, 21 Oct 2015 07:28:02 GMT"))
           {| counter := 3 |} sample_opts
           "Wed, 21 Oct 2015 07:28:02 GMT" (JS.of_Z 400)).
  - reflexivity.
  - discriminate.
  - reflexivity.
  - reflexivity.
Defined.

(** ** The connection limit *)

Lemma getOwnProperty_defineProperty o k p :
  getOwnProperty (defineProperty o k p) k = Some p.
Proof.
  induction o as [|[k' p'] o IH]; simpl.
  - by rewrite decide_True.
  - destruct (decide (k' = k)) as [->|Hne]; simpl.
    + by rewrite decide_True.
    + by rewrite decide_False.
Qed.

Lemma patchIfPool_undici_pool p :
  undici_pool p ->
  patchIfPool (IsPool p)
  = IsPool {| kConnections := kConnections p;
              own := defineProperty (own p) (SymbolKey (kConnections p))
                       (Accessor Get_maxConnection);
              stats := stats p |}.
Proof. intros H. unfold patchIfPool. cbv zeta. by rewrite H. Qed.

(** Before the patch the limit is whatever the constructor stored. *)
Example unpatched_limit_is_stored (mc : Z) :
  connections mc (new_Pool (Some 10)) = Some (NumberValue 10)
  ∧ connections mc (new_Pool None) = Some Null.
Proof. split; reflexivity. Qed.

(** C4. The limit of a patched pool, whenever it is read, is the value
    [maxConnection] holds at that time: in every state of the plugin, after
    a [maxSocketsSet] notification, and after any sequence of
    notifications. *)
Theorem pool_limit_is_live (p : Pool) :
  undici_pool p ->
  ∃ p', patchIfPool (IsPool p) = IsPool p'
    ∧ (∀ st : Plugin,
         connections (maxConnection st) p'
         = Some (NumberValue (maxConnection st)))
    ∧ (∀ (val : Z) (st : Plugin),
         ∃ st', maxSocketsSet val st = Normal st'
           ∧ connections (maxConnection st') p'
             = Some (NumberValue (if 0 <? val then val else 64)))
    ∧ (∀ parse_URL globalProxyHttps ns (st st' : Plugin),
         notify_all parse_URL globalProxyHttps ns st = Normal st' ->
         connections (maxConnection st') p'
         = Some (NumberValue (maxConnection st'))).
Proof.
  intros Hp. eexists. split; [by apply patchIfPool_undici_pool|].
  assert (Hlive : ∀ mc,
    connections mc
      {| kConnections := kConnections p;
         own := defineProperty (own p) (SymbolKey (kConnections p))
                  (Accessor Get_maxConnection);
         stats := stats p |} = Some (NumberValue mc)).
  { intros mc. unfold connections. simpl.
    by rewrite getOwnProperty_defineProperty. }
  split; [|split].
  - intros st. apply Hlive.
  - intros val st. eexists. split; [reflexivity|]. apply Hlive.
  - intros. apply Hlive.
Qed.

(** C4 on a pool fresh from the constructor. *)
Lemma pool_limit_is_live_witness :
  ∃ p', patchIfPool (IsPool (new_Pool None)) = IsPool p'
    ∧ connections 64 p' = Some (NumberValue 64)
    ∧ connections 8 p' = Some (NumberValue 8).
Proof.
  destruct (pool_limit_is_live (new_Pool None) eq_refl)
    as (p' & Hpatch & Hlive & _).
  exists p'. split; [exact Hpatch|]. split.
  - exact (Hlive (set_maxConnection 64 plugin_start)).
  - exact (Hlive (set_maxConnection 8 plugin_start)).
Defined.

(** ** Settings *)

Lemma on_settings_completes parse_URL globalProxyHttps state st :
  ∃ st', on_settings parse_URL globalProxyHttps state st = Normal st'
    ∧ maxConnection st'
      = if 0 <? maxSockets state then maxSockets state else 64.
Proof.
  unfold on_settings.
  destruct (truthy_string _) as [proxy|]; [|by eexists].
  unfold new_URL. destruct (parse_URL proxy); by eexists.
Qed.

(** C9. A [maxSockets] value, when the settings arrive and at every
    [maxSocketsSet] notification, becomes [maxConnection] when it is
    strictly positive, and 64 when it is zero or negative. *)
Theorem cap_from_maxSockets
    parse_URL globalProxyHttps (state : Settings) (val : Z) (st : Plugin) :
  (0 < val ->
   maxConnection <$> completed (maxSocketsSet val st) = Some val)
  ∧ (val <= 0 ->
     maxConnection <$> completed (maxSocketsSet val st) = Some 64)
  ∧ (0 < maxSockets state ->
     maxConnection
       <$> completed (on_settings parse_URL globalProxyHttps state st)
     = Some (maxSockets state))
  ∧ (maxSockets state <= 0 ->
     maxConnection
       <$> completed (on_settings parse_URL globalProxyHttps state st)
     = Some 64).
Proof.
  destruct (on_settings_completes parse_URL globalProxyHttps state st)
    as (st' & -> & Hmc).
  simpl. rewrite Hmc.
  repeat split; intros H.
  - by rewrite (proj2 (Z.ltb_lt 0 val) H).
  - by rewrite (proj2 (Z.ltb_ge 0 val) H).
  - by rewrite (proj2 (Z.ltb_lt 0 _) H).
  - by rewrite (proj2 (Z.ltb_ge 0 _) H).
Qed.

(** C9 at 16, 0 and -3. *)
Lemma cap_from_maxSockets_witness :
  maxConnection <$> completed (maxSocketsSet 16 plugin_start) = Some 16
  ∧ maxConnection <$> completed (maxSocketsSet 0 sample_plugin) = Some 64
  ∧ maxConnection
      <$> completed (on_settings sample_parse_URL None (sample_settings 16)
                       plugin_start) = Some 16
  ∧ maxConnection
      <$> completed (on_settings sample_parse_URL None (sample_settings (-3))
                       plugin_start) = Some 64.
Proof.
  pose proof (cap_from_maxSockets sample_parse_URL None (sample_settings 16)
                16 plugin_start) as (Hpos & _ & Hstart & _).
  pose proof (cap_from_maxSockets sample_parse_URL None (sample_settings (-3))
                0 sample_plugin) as (_ & Hzero & _ & Hneg).
  split; [|split; [|split]].
  - apply Hpos. lia.
  - apply Hzero. lia.
  - apply Hstart. simpl. lia.
  - apply Hneg. simpl. lia.
Defined.

(** C8. A proxy URL notification whose string the URL parser rejects
    completes normally, leaves the proxy controller as it was, and the
    failure is logged.  ([app.setProxy] has been called with the string
    before the parser is tried.) *)
Theorem invalid_proxy_url_is_logged parse_URL (p : string) (st : Plugin) :
  parse_URL p = None ->
  ∃ st', httpProxySet parse_URL p st = Normal st'
    ∧ proxyControl st' = proxyControl st
    ∧ maxConnection st' = maxConnection st
    ∧ effects st'
      = effects st ++ [app_setProxy p; logger_warn (invalid_url_message p)].
Proof.
  intros Hp. eexists. unfold httpProxySet, new_URL. rewrite Hp. simpl.
  split; [reflexivity|]. simpl. by rewrite <- app_assoc.
Qed.

(** C8 on a plugin that has a working proxy. *)
Lemma invalid_proxy_url_is_logged_witness :
  ProxySettingController.url (proxyControl sample_plugin)
  = Some {| URL.href := "http://127.0.0.1:7890/";
            URL.origin := "http://127.0.0.1:7890" |}
  ∧ ∃ st', httpProxySet sample_parse_URL "not a url" sample_plugin = Normal st'
      ∧ proxyControl st' = proxyControl sample_plugin
      ∧ maxConnection st' = maxConnection sample_plugin
      ∧ effects st'
        = effects sample_plugin
          ++ [app_setProxy "not a url";
              logger_warn (invalid_url_message "not a url")].
Proof.
  split; [reflexivity|].
  apply (invalid_proxy_url_is_logged sample_parse_URL "not a url"
           sample_plugin).
  reflexivity.
Defined.

(** ** The reaper *)

Lemma reap_idle_pool origin a p :
  kClients a !! origin = Some (IsPool p) ->
  no_connection (Some (stats p)) = true ->
  reap origin a
  = {| kClients := delete origin (kClients a);
       calls := calls a ++ [close (IsPool p)] |}.
Proof. intros Hp Hidle. unfold reap. rewrite Hp. by rewrite Hidle. Qed.

Lemma reap_busy_pool origin a p :
  kClients a !! origin = Some (IsPool p) ->
  no_connection (Some (stats p)) = false ->
  reap origin a = a.
Proof. intros Hp Hbusy. unfold reap. rewrite Hp. by rewrite Hbusy. Qed.

Lemma reap_not_pool origin a v :
  kClients a !! origin = Some (NotPool v) ->
  reap origin a
  = if JS.is_number_zero v
    then {| kClients := delete origin (kClients a);
            calls := calls a ++ [close (NotPool v)] |}
    else a.
Proof. intros Hp. unfold reap. by rewrite Hp. Qed.

Lemma reap_absent origin a :
  kClients a !! origin = None -> reap origin a = a.
Proof. intros Hp. unfold reap. by rewrite Hp. Qed.

Lemma is_number_zero_of_Z (n : Z) :
  JS.is_number_zero (JS.Num (JS.of_Z n)) = bool_decide (n = 0).
Proof.
  simpl. unfold Qeq_bool. simpl. rewrite !Z.mul_1_r.
  destruct n; reflexivity.
Qed.

(** The timer armed last runs after the older ones that are due, on the
    agent they leave behind, and stays pending while it is not due. *)
Lemma run_timers_snoc now ts due origin a :
  run_timers now (ts ++ [(due, origin)]) a
  = let r := run_timers now ts a in
    if due <=? now then (r.1, reap origin r.2)
    else (r.1 ++ [(due, origin)], r.2).
Proof.
  revert a. induction ts as [|[due' origin'] ts IH]; intros a; simpl.
  - by destruct (due <=? now).
  - destruct (due' <=? now).
    + apply IH.
    + rewrite IH. cbv zeta.
      destruct (run_timers now ts a) as [rest a']. simpl.
      by destruct (due <=? now).
Qed.

Lemma elapse_run_timers ms l :
  elapse ms l
  = {| clock := clock l + ms;
       timers := (run_timers (clock l + ms) (timers l) (agent l)).1;
       agent := (run_timers (clock l + ms) (timers l) (agent l)).2 |}.
Proof.
  unfold elapse. by destruct (run_timers _ _ _).
Qed.

(** C7. A drain event arms one check, 60 000 ms later.  While less than
    60 000 ms have passed the check is pending and has closed or removed
    nothing.  When it runs it reads the map as it is then, after whatever
    requests and older checks did to it: a pool of the origin whose
    connected, pending, running, queued and free counts are all zero is
    closed and its entry removed, and so is a dispatcher that is not a pool
    and whose running count is zero; a pool with a nonzero count, and a
    dispatcher with a nonzero running count, are left alone. *)
Theorem reaper_checks_live_statistics
    (l : Loop) (url : URL.t) (ms : Z)
    (f : gmap string Dispatcher -> gmap string Dispatcher) :
  0 <= ms < 60000 ->
  let origin := URL.origin url in
  let waiting := run [Drain url; Elapse ms; Activity f] l in
  let undrained := run [Elapse ms; Activity f] l in
  let live :=
    (run_timers (clock l + 60000) (timers undrained) (agent undrained)).2 in
  let checked := agent (elapse (60000 - ms) waiting) in
  timers waiting = timers undrained ++ [(clock l + 60000, origin)]
  ∧ agent waiting = agent undrained
  ∧ (∀ p,
       kClients live !! origin = Some (IsPool p) ->
       (PoolStats.connected (stats p) = 0 ∧ PoolStats.pending (stats p) = 0
        ∧ PoolStats.running (stats p) = 0 ∧ PoolStats.queued (stats p) = 0
        ∧ PoolStats.free (stats p) = 0)%nat ->
       checked = {| kClients := delete origin (kClients live);
                    calls := calls live ++ [close (IsPool p)] |})
  ∧ (∀ p,
       kClients live !! origin = Some (IsPool p) ->
       (PoolStats.connected (stats p) ≠ 0 ∨ PoolStats.pending (stats p) ≠ 0
        ∨ PoolStats.running (stats p) ≠ 0 ∨ PoolStats.queued (stats p) ≠ 0
        ∨ PoolStats.free (stats p) ≠ 0)%nat ->
       checked = live)
  ∧ (∀ running : Z,
       kClients live !! origin = Some (NotPool (JS.Num (JS.of_Z running))) ->
       checked
       = if decide (running = 0)
         then {| kClients := delete origin (kClients live);
                 calls := calls live
                          ++ [close (NotPool (JS.Num (JS.of_Z running)))] |}
         else live).
Proof.
  intros Hms origin waiting undrained live checked.
  set (r := run_timers (clock l + ms) (timers l) (agent l)).
  assert (Hundrained :
    undrained
    = {| clock := clock l + ms;
         timers := r.1;
         agent := {| kClients := f (kClients r.2); calls := calls r.2 |} |}).
  { unfold undrained, run. simpl. by rewrite elapse_run_timers. }
  assert (Hwaiting :
    waiting
    = {| clock := clock l + ms;
         timers := r.1 ++ [(clock l + 60000, origin)];
         agent := {| kClients := f (kClients r.2); calls := calls r.2 |} |}).
  { unfold waiting, run. simpl. rewrite elapse_run_timers.
    unfold on_drain, activity. simpl. rewrite run_timers_snoc. cbv zeta.
    fold r. destruct (Z.leb_spec (clock l + 60000) (clock l + ms)); [lia|].
    reflexivity. }
  clearbody waiting undrained. subst waiting undrained. simpl in live, checked.
  assert (Hchecked : checked = reap origin live).
  { unfold checked, live. rewrite elapse_run_timers. simpl.
    replace (clock l + ms + (60000 - ms)) with (clock l + 60000) by lia.
    rewrite run_timers_snoc. cbv zeta.
    destruct (Z.leb_spec (clock l + 60000) (clock l + 60000)); [|lia].
    reflexivity. }
  rewrite Hchecked. clearbody live. simpl.
  split; [reflexivity|]. split; [reflexivity|]. split; [|split].
  - intros p Hp Hidle. apply (reap_idle_pool origin live p Hp).
    by apply no_connection_Some.
  - intros p Hp Hbusy. apply (reap_busy_pool origin live p Hp).
    by apply no_connection_busy.
  - intros running Hp. rewrite (reap_not_pool origin live _ Hp).
    rewrite is_number_zero_of_Z.
    destruct (decide (running = 0)) as [->|Hne].
    + reflexivity.
    + by rewrite bool_decide_eq_false_2.
Qed.

(** C7 on the pool of [sample_origin], idle when it drains at 5 s: left
    alone for 60 s it is closed and evicted at 65 s; with a request that
    arrives 59 s after the drain it is still there at 65 s. *)
Lemma reaper_checks_live_statistics_witness :
  agent (run [Drain sample_url; Elapse 59000; Activity id; Elapse 1000]
           (sample_loop 0))
  = {| kClients := delete sample_origin (sample_clients 0);
       calls := [close (IsPool (sample_pool 0))] |}
  ∧ agent (run [Drain sample_url; Elapse 59000; Activity sample_request;
                Elapse 1000] (sample_loop 0))
    = {| kClients := sample_request (sample_clients 0); calls := [] |}.
Proof.
  split.
  - pose proof (reaper_checks_live_statistics (sample_loop 0) sample_url
                  59000 id ltac:(lia)) as H.
    cbv zeta in H. destruct H as (_ & _ & Hidle & _).
    apply (Hidle (sample_pool 0)); [reflexivity | simpl; lia].
  - pose proof (reaper_checks_live_statistics (sample_loop 0) sample_url
                  59000 sample_request ltac:(lia)) as H.
    cbv zeta in H. destruct H as (_ & _ & _ & Hbusy & _).
    apply (Hbusy (sample_pool 1)); [reflexivity | simpl; lia].
Defined.

(** ** [destroyPool] *)

(** C2. What the code does when [close()] rejects before the 500 ms timer:
    [destroyPool] throws, [clients.delete(origin)] is not reached, and the
    entry of the origin stays in the map. *)
Lemma destroyPool_close_rejects_keeps_entry :
  destroyPool sample_origin (sample_environment (Rejects 1))
    {| kClients := sample_clients 0; calls := [] |}
  = Throws {| kClients := sample_clients 0;
              calls := [close (IsPool (sample_pool 0))] |}
  ∧ sample_clients 0 !! sample_origin = Some (IsPool (sample_pool 0)).
Proof. split; reflexivity. Qed.

(** Whenever [close()] does not reject before the 500 ms timer and
    [destroy()], when it is called, fulfils, [destroyPool] returns and the
    entry of the origin is gone from the map as it is then: after a close
    that fulfils in time nothing is destroyed, and otherwise the pool, if
    there is one, is destroyed first. *)
Theorem destroyPool_removes_entry
    (origin : string) (e : Environment) (a : Agent) :
  (∀ ms, close_settles e = Rejects ms -> 500 <= ms) ->
  (is_Some (kClients a !! origin) ->
   (∀ ms, close_settles e = Fulfils ms -> 500 <= ms) ->
   ∃ ms, destroy_settles e = Fulfils ms) ->
  ∃ a', destroyPool origin e a = Returns a'
    ∧ kClients a' = delete origin (meanwhile e (kClients a))
    ∧ kClients a' !! origin = None
    ∧ (∀ d ms,
         kClients a !! origin = Some d ->
         close_settles e = Fulfils ms -> ms < 500 ->
         calls a' = calls a ++ [close d])
    ∧ (∀ d,
         kClients a !! origin = Some d ->
         (∀ ms, close_settles e = Fulfils ms -> 500 <= ms) ->
         calls a' = calls a ++ [close d; destroy d]).
Proof.
  intros Hclose Hdestroy.
  unfold destroyPool, race.
  destruct (kClients a !! origin) as [d|] eqn:Hd; simpl.
  - specialize (Hdestroy (mk_is_Some _ _ eq_refl)).
    destruct (close_settles e) as [ms|ms|] eqn:Hc; simpl.
    + destruct (Z.ltb_spec ms 500) as [Hlt|Hge]; simpl.
      * eexists. split; [reflexivity|]. simpl.
        split; [reflexivity|]. split; [apply lookup_delete_eq|]. split.
        -- intros d0 ms0 [= <-] [= <-] _. reflexivity.
        -- intros d0 _ Hlate. specialize (Hlate ms eq_refl). lia.
      * destruct Hdestroy as [ms' ->].
        { intros ms0 [= <-]. exact Hge. }
        eexists. split; [reflexivity|]. simpl.
        split; [reflexivity|]. split; [apply lookup_delete_eq|]. split.
        -- intros d0 ms0 _ [= <-] Hlt. lia.
        -- intros d0 [= <-] _. by rewrite <- app_assoc.
    + specialize (Hclose ms eq_refl).
      destruct (Z.ltb_spec ms 500) as [Hlt|Hge]; [lia|]. simpl.
      destruct Hdestroy as [ms' ->]; [intros ms0 Hf; discriminate Hf|].
      eexists. split; [reflexivity|]. simpl.
      split; [reflexivity|]. split; [apply lookup_delete_eq|]. split.
      * intros d0 ms0 _ Hf. discriminate Hf.
      * intros d0 [= <-] _. by rewrite <- app_assoc.
    + destruct Hdestroy as [ms' ->]; [intros ms0 Hf; discriminate Hf|].
      eexists. split; [reflexivity|]. simpl.
      split; [reflexivity|]. split; [apply lookup_delete_eq|]. split.
      * intros d0 ms0 _ Hf. discriminate Hf.
      * intros d0 [= <-] _. by rewrite <- app_assoc.
  - eexists. split; [reflexivity|]. simpl.
    split; [reflexivity|]. split; [apply lookup_delete_eq|].
    split; intros; discriminate.
Qed.

(** On the pool of [sample_origin]: with a close that takes 100 ms, and
    with a close that hangs. *)
Lemma destroyPool_removes_entry_witness :
  (∃ a', destroyPool sample_origin (sample_environment (Fulfils 100))
           {| kClients := sample_clients 0; calls := [] |} = Returns a'
     ∧ kClients a' !! sample_origin = None
     ∧ calls a' = [close (IsPool (sample_pool 0))])
  ∧ (∃ a', destroyPool sample_origin (sample_environment Never)
             {| kClients := sample_clients 0; calls := [] |} = Returns a'
       ∧ kClients a' !! sample_origin = None
       ∧ calls a' = [close (IsPool (sample_pool 0));
                     destroy (IsPool (sample_pool 0))]).
Proof.
  split.
  - destruct (destroyPool_removes_entry sample_origin
                (sample_environment (Fulfils 100))
                {| kClients := sample_clients 0; calls := [] |})
      as (a' & Hret & _ & Hgone & Hgraceful & _).
    + intros ms Hms. discriminate Hms.
    + intros _ _. exists 1. reflexivity.
    + exists a'. split; [exact Hret|]. split; [exact Hgone|].
      apply (Hgraceful (IsPool (sample_pool 0)) 100);
        [reflexivity | reflexivity | lia].
  - destruct (destroyPool_removes_entry sample_origin
                (sample_environment Never)
                {| kClients := sample_clients 0; calls := [] |})
      as (a' & Hret & _ & Hgone & _ & Hforced).
    + intros ms Hms. discriminate Hms.
    + intros _ _. exists 1. reflexivity.
    + exists a'. split; [exact Hret|]. split; [exact Hgone|].
      apply (Hforced (IsPool (sample_pool 0))); [reflexivity|].
      intros ms Hms. discriminate Hms.
Defined.

(** * Further properties *)

(** ** Settings: what every sequence of notifications keeps *)

Lemma notify_completes parse_URL globalProxyHttps n st :
  ∃ st', notify parse_URL globalProxyHttps n st = Normal st'
    ∧ (0 < maxConnection st -> 0 < maxConnection st').
Proof.
  destruct n as [val|p|state e]; simpl.
  - eexists. split; [reflexivity|]. intros _. simpl.
    destruct (Z.ltb_spec 0 val); lia.
  - unfold httpProxySet, new_URL.
    destruct (parse_URL p); eexists; (split; [reflexivity|]); done.
  - eexists. split; [reflexivity|]. done.
Qed.

Lemma notify_all_completes parse_URL globalProxyHttps ns st :
  0 < maxConnection st ->
  ∃ st', notify_all parse_URL globalProxyHttps ns st = Normal st'
    ∧ 0 < maxConnection st'.
Proof.
  revert st. induction ns as [|n ns IH]; intros st Hpos; simpl.
  - by eexists.
  - destruct (notify_completes parse_URL globalProxyHttps n st)
      as (st1 & -> & Hst1).
    simpl. apply IH. by apply Hst1.
Qed.

Lemma notify_all_app parse_URL globalProxyHttps ns1 ns2 st :
  notify_all parse_URL globalProxyHttps (ns1 ++ ns2) st
  = notify_all parse_URL globalProxyHttps ns1 st
    ≫= notify_all parse_URL globalProxyHttps ns2.
Proof.
  revert st. induction ns1 as [|n ns1 IH]; intros st; simpl; [reflexivity|].
  destruct (notify parse_URL globalProxyHttps n st) as [st1|e]; simpl;
    [apply IH | reflexivity].
Qed.

(** [maxConnection] is strictly positive in every state the plugin
    reaches: 64 at the start, and whatever the settings and the
    notifications are once the settings callback and the subscribers have
    run, so that a patched pool is never left without a limit. *)
Theorem settings_keep_cap_positive
    parse_URL globalProxyHttps (state : Settings) (ns : list Notification)
    (st0 st' : Plugin) :
  on_settings parse_URL globalProxyHttps state plugin_start = Normal st0 ->
  notify_all parse_URL globalProxyHttps ns st0 = Normal st' ->
  0 < maxConnection plugin_start
  ∧ 0 < maxConnection st0
  ∧ 0 < maxConnection st'.
Proof.
  intros Hst0 Hst'.
  destruct (on_settings_completes parse_URL globalProxyHttps state
              plugin_start) as (st0' & Hst0' & Hmc).
  rewrite Hst0 in Hst0'. injection Hst0' as <-.
  assert (Hpos : 0 < maxConnection st0).
  { rewrite Hmc. destruct (Z.ltb_spec 0 (maxSockets state)); lia. }
  destruct (notify_all_completes parse_URL globalProxyHttps ns st0 Hpos)
    as (st'' & Hst'' & Hpos').
  rewrite Hst' in Hst''. injection Hst'' as <-.
  split; [reflexivity|]. by split.
Qed.

(** Settings with maxSockets = -3, then the notifications 0 and -5: the
    cap is 64 throughout. *)
Lemma settings_keep_cap_positive_witness :
  0 < maxConnection plugin_start
  ∧ 0 < maxConnection
          (default plugin_start
             (completed (on_settings sample_parse_URL None
                           (sample_settings (-3)) plugin_start)))
  ∧ 0 < maxConnection
          (default plugin_start
             (completed
                (notify_all sample_parse_URL None
                   [MaxSocketsSet 0; MaxSocketsSet (-5)]
                   (default plugin_start
                      (completed (on_settings sample_parse_URL None
                                    (sample_settings (-3))
                                    plugin_start)))))).
Proof.
  apply (settings_keep_cap_positive sample_parse_URL None
           (sample_settings (-3)) [MaxSocketsSet 0; MaxSocketsSet (-5)]);
    reflexivity.
Defined.

Lemma Qmax_quarter_large (z : Z) :
  16 <= z -> (Qmax (inject_Z z / 4) 4 == inject_Z z / 4)%Q.
Proof.
  intros Hz. apply Q.max_l. unfold Qle, Qdiv, Qmult, Qinv, inject_Z. simpl. lia.
Qed.

Lemma Qmax_quarter_small (z : Z) :
  z <= 16 -> (Qmax (inject_Z z / 4) 4 == 4)%Q.
Proof.
  intros Hz. apply Q.max_r. unfold Qle, Qdiv, Qmult, Qinv, inject_Z. simpl. lia.
Qed.

(** The concurrency of the range policy follows [maxSocketsSet]: a quarter
    of a value of 16 or more, 4 for a positive value up to 16, and 16 (a
    quarter of the default 64) for a value that is zero or negative. *)
Theorem getConcurrency_after_maxSocketsSet (val : Z) (st : Plugin) :
  ∃ st', maxSocketsSet val st = Normal st'
    ∧ (16 <= val -> (getConcurrency st' == inject_Z val / 4)%Q)
    ∧ (0 < val <= 16 -> (getConcurrency st' == 4)%Q)
    ∧ (val <= 0 -> (getConcurrency st' == 16)%Q).
Proof.
  eexists. split; [reflexivity|]. unfold getConcurrency. simpl.
  split; [|split]; intros H.
  - destruct (Z.ltb_spec 0 val); [|lia]. by apply Qmax_quarter_large.
  - destruct (Z.ltb_spec 0 val); [|lia]. apply Qmax_quarter_small. lia.
  - destruct (Z.ltb_spec 0 val); [lia|]. reflexivity.
Qed.

(** At 18 the concurrency is the fraction 9/2. *)
Lemma getConcurrency_after_maxSocketsSet_witness :
  ∃ st', maxSocketsSet 18 plugin_start = Normal st'
    ∧ (getConcurrency st' == 9 # 2)%Q.
Proof.
  destruct (getConcurrency_after_maxSocketsSet 18 plugin_start)
    as (st' & Hst' & Hlarge & _).
  exists st'. split; [exact Hst'|].
  rewrite Hlarge by lia. reflexivity.
Defined.

Lemma notify_all_total parse_URL globalProxyHttps ns st :
  ∃ st', notify_all parse_URL globalProxyHttps ns st = Normal st'.
Proof.
  revert st. induction ns as [|n ns IH]; intros st; simpl; [by eexists|].
  destruct (notify_completes parse_URL globalProxyHttps n st)
    as (st1 & -> & _).
  apply IH.
Qed.

Lemma notify_url parse_URL globalProxyHttps n st st' :
  notify parse_URL globalProxyHttps n st = Normal st' ->
  ProxySettingController.url (proxyControl st')
  = match n with
    | HttpProxySet p =>
        match parse_URL p with
        | Some u => Some u
        | None => ProxySettingController.url (proxyControl st)
        end
    | _ => ProxySettingController.url (proxyControl st)
    end.
Proof.
  destruct n as [val|p|state e]; simpl.
  - intros [= <-]. reflexivity.
  - unfold httpProxySet, new_URL.
    destruct (parse_URL p); intros [= <-]; reflexivity.
  - intros [= <-]. reflexivity.
Qed.

Lemma notify_all_invalid_keeps_url parse_URL globalProxyHttps ns st :
  (∀ q, HttpProxySet q ∈ ns -> parse_URL q = None) ->
  ∃ st', notify_all parse_URL globalProxyHttps ns st = Normal st'
    ∧ ProxySettingController.url (proxyControl st')
      = ProxySettingController.url (proxyControl st).
Proof.
  revert st. induction ns as [|n ns IH]; intros st Hinvalid; simpl.
  - by eexists.
  - destruct (notify_completes parse_URL globalProxyHttps n st)
      as (st1 & Hst1 & _).
    rewrite Hst1. simpl.
    destruct (IH st1) as (st' & Hst' & Hurl).
    { intros q Hq. apply Hinvalid. by right. }
    exists st'. split; [exact Hst'|]. rewrite Hurl.
    rewrite (notify_url _ _ _ _ _ Hst1).
    destruct n as [val|p|state e]; try reflexivity.
    by rewrite (Hinvalid p (proj2 (elem_of_cons _ _ _) (or_introl eq_refl))).
Qed.

(** After any sequence of notifications the proxy controller holds the URL
    of the last [httpProxySet] whose string the parser accepted: the
    rejected ones that follow it, and the other notifications, leave it in
    place. *)
Theorem last_valid_proxy_wins
    parse_URL globalProxyHttps (ns1 ns2 : list Notification)
    (p : string) (u : URL.t) (st : Plugin) :
  parse_URL p = Some u ->
  (∀ q, HttpProxySet q ∈ ns2 -> parse_URL q = None) ->
  ∃ st',
    notify_all parse_URL globalProxyHttps (ns1 ++ HttpProxySet p :: ns2) st
    = Normal st'
    ∧ ProxySettingController.url (proxyControl st') = Some u.
Proof.
  intros Hp Hinvalid. rewrite notify_all_app.
  destruct (notify_all_total parse_URL globalProxyHttps ns1 st) as (st1 & ->).
  simpl.
  destruct (notify_completes parse_URL globalProxyHttps (HttpProxySet p) st1)
    as (st2 & Hst2 & _).
  simpl in Hst2. rewrite Hst2. simpl.
  destruct (notify_all_invalid_keeps_url parse_URL globalProxyHttps ns2 st2
              Hinvalid) as (st' & Hst' & Hurl).
  exists st'. split; [exact Hst'|]. rewrite Hurl.
  rewrite (notify_url parse_URL globalProxyHttps (HttpProxySet p) st1 st2 Hst2).
  by rewrite Hp.
Qed.

(** A valid proxy, then a cap, then a string that is no URL: the valid
    proxy is still the one in use. *)
Lemma last_valid_proxy_wins_witness :
  ∃ st',
    notify_all sample_parse_URL None
      ([HttpProxyEnabledSet (sample_settings 16) true]
       ++ HttpProxySet "http://127.0.0.1:7890"
          :: [MaxSocketsSet 8; HttpProxySet "not a url"])
      plugin_start = Normal st'
    ∧ ProxySettingController.url (proxyControl st')
      = Some {| URL.href := "http://127.0.0.1:7890/";
                URL.origin := "http://127.0.0.1:7890" |}.
Proof.
  apply (last_valid_proxy_wins sample_parse_URL None
           [HttpProxyEnabledSet (sample_settings 16) true]
           [MaxSocketsSet 8; HttpProxySet "not a url"]
           "http://127.0.0.1:7890").
  - reflexivity.
  - intros q Hq. apply elem_of_cons in Hq as [Hq|Hq]; [discriminate|].
    apply list_elem_of_singleton in Hq. by injection Hq as ->.
Defined.

(** When the settings arrive, [app.setProxy] is only ever called with a
    string the URL parser accepted, which is then the controller's URL; the
    enabled flag is the one of the settings; and with neither a proxy
    setting nor a proxy in the environment nothing is called at all. *)
Theorem startup_proxy_only_when_valid
    parse_URL globalProxyHttps (state : Settings) (st : Plugin) :
  ∃ st', on_settings parse_URL globalProxyHttps state st = Normal st'
    ∧ ProxySettingController.enabled (proxyControl st')
      = httpProxyEnabled state
    ∧ (∀ p, app_setProxy p ∈ effects st' ->
         app_setProxy p ∈ effects st
         ∨ (is_Some (parse_URL p)
            ∧ ProxySettingController.url (proxyControl st') = parse_URL p))
    ∧ (httpProxy state = "" -> globalProxyHttps = None ->
       effects st' = effects st
       ∧ ProxySettingController.url (proxyControl st')
         = ProxySettingController.url (proxyControl st)).
Proof.
  unfold on_settings.
  destruct (truthy_string (or_string (httpProxy state) globalProxyHttps))
    as [proxy|] eqn:Hproxy.
  - unfold new_URL. destruct (parse_URL proxy) as [u|] eqn:Hu; simpl.
    + eexists. split; [reflexivity|]. simpl. split; [reflexivity|]. split.
      * intros p Hp. apply elem_of_app in Hp as [Hp|Hp]; [by left|].
        apply list_elem_of_singleton in Hp. injection Hp as ->.
        right. by rewrite Hu.
      * intros Hnone Henv. rewrite Hnone, Henv in Hproxy. discriminate.
    + eexists. split; [reflexivity|]. simpl. split; [reflexivity|]. split.
      * intros p Hp. apply elem_of_app in Hp as [Hp|Hp]; [by left|].
        apply list_elem_of_singleton in Hp. discriminate.
      * intros Hnone Henv. rewrite Hnone, Henv in Hproxy. discriminate.
  - eexists. split; [reflexivity|]. simpl. split; [reflexivity|]. split.
    + intros p Hp. by left.
    + done.
Qed.

(** ** The status of the agent *)

Lemma PoolStats_eta (s : PoolStats.t) :
  {| PoolStats.connected := PoolStats.connected s;
     PoolStats.free := PoolStats.free s;
     PoolStats.pending := PoolStats.pending s;
     PoolStats.queued := PoolStats.queued s;
     PoolStats.running := PoolStats.running s;
     PoolStats.size := PoolStats.size s |} = s.
Proof. by destruct s. Qed.

(** The status has an entry for exactly the origins whose dispatcher is a
    pool, and the entry is the pool's statistics; an origin with another
    dispatcher, or with none, has no entry. *)
Theorem getAgentStatus_lookup (clients : gmap string Dispatcher) (k : string) :
  getAgentStatus clients !! k = stats_of (clients !! k).
Proof.
  unfold getAgentStatus.
  rewrite <- (list_to_map_to_list clients) at 2.
  pose proof (NoDup_fst_map_to_list clients) as Hnodup.
  change (stats_of (list_to_map (map_to_list clients) !! k))
    with (match (list_to_map (map_to_list clients) : gmap string Dispatcher)
                !! k with
          | Some (IsPool p) => Some (stats p)
          | _ => (∅ : gmap string PoolStats.t) !! k
          end).
  generalize (∅ : gmap string PoolStats.t) as init.
  induction (map_to_list clients) as [|[k' v'] l IH]; intros init; simpl.
  - reflexivity.
  - apply NoDup_cons in Hnodup as [Hfresh Hnodup].
    rewrite (IH Hnodup).
    destruct (decide (k' = k)) as [->|Hne].
    + rewrite lookup_insert_eq.
      rewrite (not_elem_of_list_to_map_1 _ _ Hfresh).
      destruct v' as [p|v]; [|reflexivity].
      by rewrite lookup_insert_eq, PoolStats_eta.
    + rewrite (lookup_insert_ne _ _ _ _ Hne).
      destruct (list_to_map l !! k) as [[p|v]|]; try reflexivity;
        destruct v' as [p'|v'']; try reflexivity;
        by rewrite lookup_insert_ne.
Qed.

(** ** The retry callback: when a retry is scheduled, and for how long *)

Lemma retry_checks_scheduled_iff StringToNumber now mul pow err state opts :
  (∃ w, retry_checks StringToNumber now mul pow err state opts = RetryAfter w)
  <-> (∀ ms, methods (retryOptions opts) = Some ms -> method opts ∈ ms)
      ∧ (∀ sc scs,
           statusCode err = Some sc ->
           statusCodes (retryOptions opts) = Some scs -> sc ∈ scs)
      ∧ counter state <= maxRetries (retryOptions opts).
Proof.
  unfold retry_checks.
  destruct (methods (retryOptions opts)) as [ms|];
    [destruct (bool_decide_reflect (method opts ∈ ms)) as [Hm|Hm]|];
    simpl;
    try (split; [intros [w Hw]; discriminate Hw
                | intros (Hmeth & _ & _); exfalso; by apply Hm, Hmeth]).
  all: destruct (statusCode err) as [sc|];
    [destruct (statusCodes (retryOptions opts)) as [scs|];
     [destruct (bool_decide_reflect (sc ∈ scs)) as [Hs|Hs]| ]| ];
    simpl;
    try (split; [intros [w Hw]; discriminate Hw
                | intros (_ & Hstat & _); exfalso; by eapply Hs, Hstat]).
  all: destruct (Z.ltb_spec (maxRetries (retryOptions opts)) (counter state))
    as [Hlt|Hge];
    (split; [intros [w Hw]; try discriminate Hw | intros (_ & _ & Hc)]);
    try lia; try by eexists.
  all: repeat split; try lia; intros; simplify_eq; done.
Qed.

(** What lets an error code through lines 96-120: no code, the retry
    sentinel, an allowed code, or a connect timeout on an origin whose pool
    has a nonzero count. *)
Local Abbreviation code_passes clients err opts :=
  (∀ c, code err = Some c -> c ≠ "" ->
     c = "UND_ERR_REQ_RETRY"
     ∨ c ∈ errorCodes (retryOptions opts)
     ∨ (c = "UND_ERR_CONNECT_TIMEOUT"
        ∧ ∃ o p, origin opts = Some o ∧ o ≠ OriginString ""
            ∧ clients !! origin_key o = Some (IsPool p)
            ∧ (PoolStats.connected (stats p) ≠ 0
               ∨ PoolStats.pending (stats p) ≠ 0
               ∨ PoolStats.running (stats p) ≠ 0
               ∨ PoolStats.queued (stats p) ≠ 0
               ∨ PoolStats.free (stats p) ≠ 0)%nat)).

Lemma retry_gate StringToNumber clients now mul pow err state opts :
  from_option value false (noRetry opts) = false ->
  (code_passes clients err opts
   ∧ retry StringToNumber clients now mul pow err state opts
     = retry_checks StringToNumber now mul pow err state opts)
  ∨ (¬ code_passes clients err opts
     ∧ retry StringToNumber clients now mul pow err state opts = Fail).
Proof.
  intros Hnr. unfold retry. rewrite Hnr.
  destruct (code err) as [c|]; simpl; [|left; by split].
  destruct (String.eqb_spec c "") as [->|Hc]; simpl.
  { left. split; [|reflexivity]. by intros c' [= <-]. }
  destruct (String.eqb_spec c "UND_ERR_REQ_RETRY") as [->|Hretry]; simpl.
  { left. split; [|reflexivity]. intros c' [= <-] _. by left. }
  destruct (bool_decide_reflect (c ∈ errorCodes (retryOptions opts)))
    as [Hin|Hnotin]; simpl.
  { left. split; [|reflexivity]. intros c' [= <-] _. right. by left. }
  destruct (String.eqb_spec c "UND_ERR_CONNECT_TIMEOUT") as [->|Htimeout];
    simpl.
  2:{ right. split; [|reflexivity]. intros Hcode.
      destruct (Hcode c eq_refl Hc) as [?|[?|[? _]]]; done. }
  destruct (origin opts) as [o|]; simpl.
  2:{ right. split; [|reflexivity]. intros Hcode.
      destruct (Hcode _ eq_refl Hc) as [?|[?|[_ (o' & p & Ho & _)]]]; done. }
  destruct (no_origin (Some o)) eqn:Hno; simpl in Hno |- *; rewrite Hno.
  { right. split; [|reflexivity]. intros Hcode.
    destruct (Hcode _ eq_refl Hc)
      as [?|[?|[_ (o' & p & [= <-] & Hne & _)]]]; try done.
    destruct o as [s|u]; [|discriminate Hno].
    apply String.eqb_eq in Hno. by subst. }
  destruct (clients !! origin_key o) as [[p|v]|] eqn:Hpool; simpl.
  2,3: right; split; [|reflexivity]; intros Hcode;
    destruct (Hcode _ eq_refl Hc)
      as [?|[?|[_ (o' & p' & [= <-] & _ & Hp' & _)]]]; try done;
    rewrite Hpool in Hp'; discriminate Hp'.
  destruct (no_connection (Some (stats p))) eqn:Hidle.
  - right. split; [|reflexivity]. intros Hcode.
    destruct (Hcode _ eq_refl Hc)
      as [?|[?|[_ (o' & p' & [= <-] & _ & Hp' & Hbusy)]]]; try done.
    rewrite Hpool in Hp'. injection Hp' as <-.
    by rewrite (no_connection_busy _ Hbusy) in Hidle.
  - left. split; [|reflexivity]. intros c' [= <-] _. right. right.
    split; [reflexivity|]. exists o, p. split; [reflexivity|].
    split; [intros ->; discriminate Hno|]. split; [exact Hpool|].
    apply not_true_iff_false in Hidle. rewrite no_connection_Some in Hidle.
    lia.
Qed.

(** A retry is scheduled exactly when the request is not marked as not to
    be retried, the error code (if any) is the retry sentinel, an allowed
    code, or a connect timeout on an origin whose pool has a nonzero count,
    the method and the status code are in their lists when these are
    given, and the counter is at most [maxRetries]; otherwise the callback
    fails with the error. *)
Theorem retry_scheduled_iff StringToNumber clients now mul pow err state opts :
  (∃ w, retry StringToNumber clients now mul pow err state opts = RetryAfter w)
  <-> (∀ nr, noRetry opts = Some nr -> value nr = false)
      ∧ code_passes clients err opts
      ∧ (∀ ms, methods (retryOptions opts) = Some ms -> method opts ∈ ms)
      ∧ (∀ sc scs,
           statusCode err = Some sc ->
           statusCodes (retryOptions opts) = Some scs -> sc ∈ scs)
      ∧ counter state <= maxRetries (retryOptions opts).
Proof.
  rewrite <- (retry_checks_scheduled_iff StringToNumber now mul pow err state opts).
  destruct (from_option value false (noRetry opts)) eqn:Hnr.
  - assert (retry StringToNumber clients now mul pow err state opts = Fail) as ->.
    { unfold retry. by rewrite Hnr. }
    split; [intros [w Hw]; discriminate Hw|].
    intros (Hnone & _). destruct (noRetry opts) as [nr|]; [|discriminate Hnr].
    simpl in Hnr. rewrite (Hnone nr eq_refl) in Hnr. discriminate Hnr.
  - assert (Hflag : ∀ nr, noRetry opts = Some nr -> value nr = false).
    { intros nr Hsome. by rewrite Hsome in Hnr. }
    destruct (retry_gate StringToNumber clients now mul pow err state opts Hnr)
      as [[Hpass ->]|[Hblock ->]].
    + split; [intros Hw; by repeat split | by intros (_ & _ & Hw)].
    + split; [intros [w Hw]; discriminate Hw|].
      intros (_ & Hpass & _). by destruct Hblock.
Qed.

(** Whichever branch computes it, the wait of a scheduled retry is never
    above [maxTimeout].  When the delay read from the [retry-after] header is
    positive and [maxTimeout] is positive, the wait is moreover a finite,
    strictly positive number: the smaller of that delay and [maxTimeout],
    whatever the counter and the backoff are. *)
Theorem scheduled_wait_bounds
    StringToNumber clients now mul pow err state opts w :
  retry StringToNumber clients now mul pow err state opts = RetryAfter w ->
  JS.gt w (JS.Fin (maxTimeout (retryOptions opts))) = false
  ∧ ((0 < maxTimeout (retryOptions opts))%Q ->
     JS.gt (Number StringToNumber (retryAfterHeader StringToNumber now mul err))
           (JS.of_Z 0) = true ->
     ∃ q : Q, w = JS.Fin q ∧ (0 < q)%Q
              ∧ (q <= maxTimeout (retryOptions opts))%Q).
Proof.
  intros Hretry. apply retry_RetryAfter in Hretry. subst w.
  unfold retryTimeout. split.
  - destruct (JS.gt (Number StringToNumber _) (JS.of_Z 0));
      [apply gt_Math_min_r|].
    unfold backoff. apply gt_Math_min_r.
  - intros Hmax Hgt. rewrite Hgt.
    destruct (Number StringToNumber _) as [|[]|a]; simpl in Hgt |- *;
      try discriminate Hgt.
    + eexists. split; [reflexivity|]. split; [exact Hmax | apply Qle_refl].
    + eexists. split; [reflexivity|]. split; [|apply Q.le_min_r].
      apply Q.min_glb_lt; [|exact Hmax].
      apply negb_true_iff in Hgt. apply Qnot_le_lt. intros Hle.
      apply Qle_bool_iff in Hle. exact (eq_true_false_abs _ Hle Hgt).
Qed.

(** On [retry-after: 3600] with maxTimeout = 100000 the wait is
    maxTimeout. *)
Lemma scheduled_wait_bounds_witness :
  JS.gt (JS.of_Z 100000) (JS.Fin (maxTimeout (retryOptions sample_opts)))
  = false
  ∧ ∃ q : Q, JS.of_Z 100000 = JS.Fin q ∧ (0 < q)%Q
             ∧ (q <= maxTimeout (retryOptions sample_opts))%Q.
Proof.
  destruct (scheduled_wait_bounds JS.decimal_StringToNumber ∅ sample_now
              JS.exact_mul JS.exact_pow (sample_503 (Some "3600"))
              {| counter := 1 |} sample_opts (JS.of_Z 100000) eq_refl)
    as [Hcap Hpositive].
  split; [exact Hcap|]. apply Hpositive; reflexivity.
Defined.

(** A [retry-after] header that is a number is read as seconds: when its
    product with 1000 is positive, the retry waits that product, capped by
    [maxTimeout], whatever the counter is. *)
Theorem retry_after_seconds_wait
    StringToNumber clients now mul pow err state opts
    (s : string) (n : JS.number) w :
  headers err ≫= lookup "retry-after" = Some s ->
  s ≠ "" ->
  StringToNumber s = n ->
  JS.isNaN n = false ->
  JS.gt (mul n (JS.of_Z 1000)) (JS.of_Z 0) = true ->
  retry StringToNumber clients now mul pow err state opts = RetryAfter w ->
  w = JS.Math_min (mul n (JS.of_Z 1000))
        (JS.Fin (maxTimeout (retryOptions opts))).
Proof.
  intros Hs Hne Hnum Hnan Hpos Hretry.
  apply retry_RetryAfter in Hretry. subst w.
  unfold retryTimeout, retryAfterHeader. rewrite Hs. simpl.
  destruct (String.eqb_spec s "") as [->|_]; [done|]. simpl.
  rewrite Hnum, Hnan. simpl. by rewrite Hpos.
Qed.

(** [retry-after: 5]: 5000 ms. *)
Lemma retry_after_seconds_wait_witness :
  JS.of_Z 5000
  = JS.Math_min (JS.exact_mul (JS.of_Z 5) (JS.of_Z 1000))
      (JS.Fin (maxTimeout (retryOptions sample_opts))).
Proof.
  apply (retry_after_seconds_wait JS.decimal_StringToNumber ∅ sample_now
           JS.exact_mul JS.exact_pow (sample_503 (Some "5"))
           {| counter := 1 |} sample_opts "5" (JS.of_Z 5) (JS.of_Z 5000));
    done.
Defined.

(** [calculateRetryAfterHeader] on a time value: for an integer number of
    milliseconds within the range of dates it is the distance from the
    clock to that time; outside that range, and for [NaN] and the
    infinities, it is [NaN]. *)
Theorem calculateRetryAfterHeader_time (now t : Z) :
  (Z.abs t <= 8640000000000000 ->
   ∃ q : Q, calculateRetryAfterHeader now (JS.of_Z t) = JS.Fin q
            ∧ (q == inject_Z (t - now))%Q)
  ∧ (8640000000000000 < Z.abs t ->
     calculateRetryAfterHeader now (JS.of_Z t) = JS.NaN)
  ∧ calculateRetryAfterHeader now JS.NaN = JS.NaN
  ∧ (∀ s, calculateRetryAfterHeader now (JS.Inf s) = JS.NaN).
Proof.
  assert (Hrange : Qle_bool (Qabs (inject_Z t)) (inject_Z 8640000000000000)
                   = (Z.abs t <=? 8640000000000000)).
  { unfold Qle_bool, Qabs, inject_Z. simpl. by rewrite Z.mul_1_r. }
  assert (Htrunc : JS.truncate (inject_Z t) = t).
  { unfold JS.truncate.
    destruct (Qle_bool 0 (inject_Z t)); [apply Qfloor_Z | apply Qceiling_Z]. }
  split; [|split; [|split]].
  - intros Ht. unfold calculateRetryAfterHeader, JS.of_Z, JS.Date_getTime.
    rewrite Hrange, (proj2 (Z.leb_le _ _) Ht). unfold JS.of_Z.
    rewrite Htrunc. simpl. eexists. split; [reflexivity|].
    unfold Qeq, Qminus, Qplus, Qopp, inject_Z. simpl. lia.
  - intros Ht. unfold calculateRetryAfterHeader, JS.of_Z, JS.Date_getTime.
    rewrite Hrange, (proj2 (Z.leb_gt _ _) Ht). reflexivity.
  - reflexivity.
  - reflexivity.
Qed.

(** Two seconds after the clock: 2000 ms. *)
Lemma calculateRetryAfterHeader_time_witness :
  ∃ q : Q,
    calculateRetryAfterHeader sample_now (JS.of_Z (sample_now + 2000))
    = JS.Fin q
    ∧ (q == inject_Z 2000)%Q.
Proof.
  destruct (proj1 (calculateRetryAfterHeader_time sample_now
                     (sample_now + 2000)))
    as (q & Hq & Heq).
  - unfold sample_now. simpl. lia.
  - exists q. split; [exact Hq|]. rewrite Heq. reflexivity.
Defined.

(** ** The reaper and [destroyPool]: what they leave alone *)

(** The check of a drain event touches the entry of its origin and nothing
    else, calls [close] only on the dispatcher it removes, and has nothing
    left to do when it runs a second time: two drains of an origin close
    its pool once. *)
Theorem reap_once_and_only_there (origin : string) (a : Agent) :
  reap origin (reap origin a) = reap origin a
  ∧ (∀ k, k ≠ origin -> kClients (reap origin a) !! k = kClients a !! k)
  ∧ (reap origin a = a
     ∨ ∃ d, kClients a !! origin = Some d
         ∧ reap origin a = {| kClients := delete origin (kClients a);
                              calls := calls a ++ [close d] |}).
Proof.
  assert (Hcases :
    reap origin a = a
    ∨ ∃ d, kClients a !! origin = Some d
        ∧ reap origin a = {| kClients := delete origin (kClients a);
                             calls := calls a ++ [close d] |}).
  { unfold reap. destruct (kClients a !! origin) as [[p|v]|] eqn:Hd.
    - destruct (no_connection (Some (stats p))); [right; by eexists | by left].
    - destruct (JS.is_number_zero v); [right; by eexists | by left].
    - by left. }
  split; [|split; [|exact Hcases]].
  - destruct Hcases as [Hsame|(d & Hd & ->)]; [by rewrite !Hsame|].
    apply reap_absent. simpl. apply lookup_delete_eq.
  - intros k Hk. destruct Hcases as [->|(d & Hd & ->)]; [reflexivity|].
    simpl. by apply lookup_delete_ne.
Qed.

(** For an origin without entry [destroyPool] returns without calling
    [close] or [destroy], however these would settle. *)
Theorem destroyPool_absent_origin
    (origin : string) (e : Environment) (a : Agent) :
  kClients a !! origin = None ->
  destroyPool origin e a
  = Returns {| kClients := delete origin (meanwhile e (kClients a));
               calls := calls a |}.
Proof.
  intros Hnone. unfold destroyPool, race. rewrite Hnone. simpl.
  by rewrite app_nil_r.
Qed.

Lemma destroyPool_absent_origin_witness :
  destroyPool "https://elsewhere.example" (sample_environment (Rejects 1))
    {| kClients := sample_clients 1; calls := [] |}
  = Returns {| kClients := sample_clients 1; calls := [] |}.
Proof.
  rewrite (destroyPool_absent_origin "https://elsewhere.example"
             (sample_environment (Rejects 1))
             {| kClients := sample_clients 1; calls := [] |} eq_refl).
  reflexivity.
Defined.

(** However a call of [destroyPool] ends, the entries of the other origins
    are the ones the other tasks left, [close] has been called once on the
    dispatcher of the origin if there is one, and [destroy] at most once,
    after it. *)
Theorem destroyPool_only_its_origin
    (origin : string) (e : Environment) (a : Agent) :
  let a' := outcome (destroyPool origin e a) in
  (∀ k, k ≠ origin -> kClients a' !! k = meanwhile e (kClients a) !! k)
  ∧ match kClients a !! origin with
    | Some d => calls a' = calls a ++ [close d]
                ∨ calls a' = calls a ++ [close d; destroy d]
    | None => calls a' = calls a
    end.
Proof.
  unfold destroyPool, race.
  destruct (kClients a !! origin) as [d|]; simpl.
  - destruct (close_settles e) as [ms|ms|]; simpl;
      try destruct (ms <? 500); simpl;
      try destruct (destroy_settles e); simpl;
      (split;
       [intros k Hk; by rewrite ?lookup_delete_ne
       |rewrite <- ?app_assoc; auto]).
  - split; [intros k Hk; by rewrite lookup_delete_ne | by rewrite app_nil_r].
Qed.

(** [destroyPool] throws exactly when the origin has a dispatcher and either
    its [close()] rejects before the 500 ms timer, or the close does not
    settle before the timer and [destroy()] rejects; the map is then the one
    the other tasks left, with nothing removed by the call. *)
Theorem destroyPool_throws_iff
    (origin : string) (e : Environment) (a : Agent) :
  ((∃ a', destroyPool origin e a = Throws a')
   <-> is_Some (kClients a !! origin)
       ∧ ((∃ ms, close_settles e = Rejects ms ∧ ms < 500)
          ∨ ((∀ ms, close_settles e = Fulfils ms -> 500 <= ms)
             ∧ (∀ ms, close_settles e = Rejects ms -> 500 <= ms)
             ∧ ∃ ms, destroy_settles e = Rejects ms)))
  ∧ (∀ a', destroyPool origin e a = Throws a' ->
       kClients a' = meanwhile e (kClients a)).
Proof.
  unfold destroyPool, race.
  destruct (kClients a !! origin) as [d|]; simpl.
  2:{ split; [|intros a' Ha'; discriminate Ha'].
      split; [intros [a' Ha']; discriminate Ha' | intros [[d Hd] _]; done]. }
  destruct (close_settles e) as [ms|ms|]; simpl;
    try destruct (Z.ltb_spec ms 500) as [Hlt|Hge]; simpl;
    try destruct (destroy_settles e) as [ms'|ms'|]; simpl.
  all: split; [|intros a' [= <-]; reflexivity].
  all: split;
    [ intros [a' Ha']; try discriminate Ha'; (split; [by eexists|])
    | intros [_ [(ms0 & Hr & Hlt0)|(Hf & Hr & ms0 & Hd)]];
      simplify_eq; try lia; try by eexists ].
  all: try (left; eexists; split; [reflexivity | lia]).
  all: try (right; split; [intros ms0 Hms0; simplify_eq; lia|];
            split; [intros ms0 Hms0; simplify_eq; lia|]; by eexists).
  all: try (specialize (Hf _ eq_refl); lia).
Qed.

(** ** The patch: what it changes *)

Lemma defineProperty_keys o k p :
  k ∈ fst <$> o -> fst <$> defineProperty o k p = fst <$> o.
Proof.
  induction o as [|[k' p'] o IH]; simpl; intros Hk.
  - by apply elem_of_nil in Hk.
  - destruct (decide (k' = k)) as [->|Hne]; [reflexivity|]. simpl.
    f_equal. apply IH. apply elem_of_cons in Hk as [Hk|Hk]; [by subst|done].
Qed.

Lemma getOwnProperty_defineProperty_ne o k k' p :
  k' ≠ k ->
  getOwnProperty (defineProperty o k p) k' = getOwnProperty o k'.
Proof.
  intros Hne. induction o as [|[k0 p0] o IH]; simpl.
  - by rewrite decide_False.
  - destruct (decide (k0 = k)) as [->|Hk0]; simpl.
    + by rewrite !decide_False.
    + destruct (decide (k0 = k')); [reflexivity | exact IH].
Qed.

Lemma defineProperty_twice o k p :
  defineProperty (defineProperty o k p) k p = defineProperty o k p.
Proof.
  induction o as [|[k0 p0] o IH]; simpl.
  - by rewrite decide_True.
  - destruct (decide (k0 = k)) as [->|Hk0]; simpl.
    + by rewrite decide_True.
    + rewrite decide_False by done. by rewrite IH.
Qed.

(** [patchIfPool] returns a dispatcher that is not a pool as it is.  On a
    pool it keeps the statistics and the own keys in their order, changes
    no property but the first symbol described as 'connections', is the
    identity when there is no such symbol, and patching twice is patching
    once. *)
Theorem patchIfPool_changes_only_the_limit :
  (∀ v, patchIfPool (NotPool v) = NotPool v)
  ∧ ∀ p, ∃ p',
      patchIfPool (IsPool p) = IsPool p'
      ∧ stats p' = stats p
      ∧ kConnections p' = kConnections p
      ∧ fst <$> own p' = fst <$> own p
      ∧ (∀ k, List.find is_connections (fst <$> own p) ≠ Some k ->
           getOwnProperty (own p') k = getOwnProperty (own p) k)
      ∧ (List.find is_connections (fst <$> own p) = None -> p' = p)
      ∧ patchIfPool (IsPool p') = IsPool p'.
Proof.
  split; [reflexivity|]. intros p. unfold patchIfPool at 1. cbv zeta.
  destruct (List.find is_connections (fst <$> own p)) as [k|] eqn:Hfind.
  - eexists. split; [reflexivity|]. simpl.
    assert (Hk : k ∈ fst <$> own p).
    { apply list_elem_of_In. by apply find_some in Hfind as [Hin _]. }
    split; [reflexivity|]. split; [reflexivity|].
    split; [by apply defineProperty_keys|]. split; [|split; [done|]].
    + intros k' Hk'. apply getOwnProperty_defineProperty_ne.
      intros ->. by apply Hk'.
    + unfold patchIfPool. cbv zeta. simpl.
      rewrite (defineProperty_keys _ _ _ Hk), Hfind.
      by rewrite defineProperty_twice.
  - exists p. split; [reflexivity|]. repeat split; try done.
    unfold patchIfPool. cbv zeta. by rewrite Hfind.
Qed.

(** ** The market list component *)

Lemma substring_all (s : string) : String.substring 0 (String.length s) s = s.
Proof. induction s as [|c s IH]; simpl; [reflexivity | by rewrite IH]. Qed.

(** A selected id that begins with [modrinth:] or [curseforge:] is decoded
    from the id alone, whatever the list holds: the Modrinth id is the text
    after the prefix, the CurseForge id is that text converted by
    [Number]. *)
Theorem prefixed_id_decodes
    StringToNumber (props : Props) (v : View) (x : string) :
  (selectedId v = Some ("modrinth:" +:+ x) ->
   selectedModrinthId props v = x)
  ∧ (selectedId v = Some ("curseforge:" +:+ x) ->
     selectedCurseforgeId StringToNumber props v
     = JS.Num (StringToNumber x)).
Proof.
  split; intros Hid.
  - unfold selectedModrinthId. rewrite Hid. unfold substring_from. simpl.
    change ("" +:+ x) with x.
    assert (String.prefix "" x = true) as -> by (by destruct x).
    rewrite Nat.sub_0_r. apply substring_all.
  - unfold selectedCurseforgeId. rewrite Hid. unfold substring_from. simpl.
    change ("" +:+ x) with x.
    assert (String.prefix "" x = true) as -> by (by destruct x).
    by rewrite Nat.sub_0_r, substring_all.
Qed.

Lemma prefixed_id_decodes_witness :
  selectedModrinthId sample_props (sample_view (Some "modrinth:AANobbMI"))
  = "AANobbMI"
  ∧ selectedCurseforgeId JS.decimal_StringToNumber sample_props
      (sample_view (Some "curseforge:394468"))
    = JS.Num (JS.of_Z 394468).
Proof.
  split.
  - apply (prefixed_id_decodes JS.decimal_StringToNumber sample_props
             (sample_view (Some "modrinth:AANobbMI")) "AANobbMI").
    reflexivity.
  - apply (prefixed_id_decodes JS.decimal_StringToNumber sample_props
             (sample_view (Some "curseforge:394468")) "394468").
    reflexivity.
Defined.

Lemma find_has_id id l item :
  List.find (has_id id) l = Some item ->
  ∃ e, item = Entry e ∧ Entry e ∈ l ∧ id = Some (ProjectEntry.id e).
Proof.
  intros Hfind. apply find_some in Hfind as [Hin Hid].
  destruct item as [s| |e]; try discriminate Hid.
  destruct id as [id|]; [|discriminate Hid]. simpl in Hid.
  apply String.eqb_eq in Hid. subst id.
  exists e. split; [reflexivity|]. split; [by apply list_elem_of_In | done].
Qed.

(** The selected item is an entry of the list whose [id] is the selected
    id; there is none when no id is selected or no entry has it. *)
Theorem selectedItem_is_the_selected_entry (props : Props) (v : View) :
  (∀ e, selectedItem props v = Some e ->
     Entry e ∈ items props ∧ selectedId v = Some (ProjectEntry.id e)
     ∧ ProjectEntry.id e ≠ "")
  ∧ (selectedItem props v = None
     <-> selectedId v = None ∨ selectedId v = Some ""
         ∨ ∀ e, Entry e ∈ items props ->
             selectedId v ≠ Some (ProjectEntry.id e)).
Proof.
  unfold selectedItem. split.
  - intros e He.
    destruct (selectedId v) as [id|] eqn:Hsel; [|discriminate He].
    simpl in He. destruct (String.eqb_spec id "") as [->|Hne];
      [discriminate He|].
    destruct (List.find _ _) as [item|] eqn:Hfind; [|discriminate He].
    apply find_has_id in Hfind as (e' & -> & Hin & [= ->]).
    simpl in He. injection He as <-. done.
  - destruct (selectedId v) as [id|] eqn:Hsel; simpl; [|by split; auto].
    destruct (String.eqb_spec id "") as [->|Hne]; [by split; auto|].
    destruct (List.find _ _) as [item|] eqn:Hfind; simpl.
    + apply find_has_id in Hfind as (e' & -> & Hin & [= ->]). simpl.
      split; [done|]. intros [?|[[= ?]|Hnone]]; try done.
      by destruct (Hnone e' Hin).
    + split; [|done]. intros _. right. right. intros e Hin [= ->].
      apply list_elem_of_In in Hin.
      pose proof (find_none _ _ Hfind _ Hin) as Hfalse. simpl in Hfalse.
      by rewrite String.eqb_refl in Hfalse.
Qed.

(** When the list is filled for the first time and begins with an entry,
    the watcher selects that entry, and it is the selected item; once the
    list had items, a change of the list leaves the selection alone. *)
Theorem first_entry_becomes_selected
    (props : Props) (v : View) (e : ProjectEntry.t) (rest : list Item)
    (old : option (list Item)) :
  items props = Entry e :: rest ->
  ProjectEntry.id e ≠ "" ->
  (old = None ∨ old = Some [] ->
   selectedItem props (watch_items (items props) old v) = Some e)
  ∧ (∀ x xs, old = Some (x :: xs) -> watch_items (items props) old v = v).
Proof.
  intros Hitems Hid. split.
  - intros Hold. rewrite Hitems.
    assert (Hwatch : watch_items (Entry e :: rest) old v
                     = {| selectedId := Some (ProjectEntry.id e);
                          selections := selections v;
                          emitted := emitted v |}).
    { by destruct Hold as [->| ->]. }
    rewrite Hwatch. unfold selectedItem. simpl.
    destruct (String.eqb_spec (ProjectEntry.id e) "") as [?|_]; [done|].
    rewrite Hitems. simpl. by rewrite String.eqb_refl.
  - by intros x xs ->.
Qed.

Lemma first_entry_becomes_selected_witness :
  selectedItem
    {| items := [Entry (sample_entry "sodium" 1); Text "More"];
       selectionMode := false |}
    (watch_items [Entry (sample_entry "sodium" 1); Text "More"] (Some [])
       (sample_view None))
  = Some (sample_entry "sodium" 1).
Proof.
  apply (first_entry_becomes_selected
           {| items := [Entry (sample_entry "sodium" 1); Text "More"];
              selectionMode := false |}
           (sample_view None) (sample_entry "sodium" 1) [Text "More"]
           (Some [])).
  - reflexivity.
  - discriminate.
  - by right.
Defined.

Lemma onSelect_ctrl props event i v :
  selectionMode props = true ->
  (0 < ProjectEntry.installed_length i)%nat ->
  ctrlKey event = true ->
  onSelect props event i v
  = {| selectedId := selectedId v;
       selections :=
         <[ProjectEntry.id i :=
             negb (default false (selections v !! ProjectEntry.id i))]>
           (selections v);
       emitted := emitted v |}.
Proof.
  intros Hmode Hinst Hctrl. unfold onSelect.
  rewrite Hmode, Hctrl, (proj2 (Nat.ltb_lt _ _) Hinst). reflexivity.
Qed.

(** In selection mode a ctrl-click on an installed item flips the check of
    that item and of nothing else, keeps the selected id, and a second
    ctrl-click on it gives every item of any list the check it had. *)
Theorem ctrl_click_toggles
    (props : Props) (event : MouseEvent) (i : ProjectEntry.t) (v : View) :
  selectionMode props = true ->
  (0 < ProjectEntry.installed_length i)%nat ->
  ctrlKey event = true ->
  let v1 := onSelect props event i v in
  let v2 := onSelect props event i v1 in
  selectedId v1 = selectedId v
  ∧ checked v1 (Entry i) = negb (checked v (Entry i))
  ∧ (∀ k, k ≠ ProjectEntry.id i -> selections v1 !! k = selections v !! k)
  ∧ (∀ item, checked v2 item = checked v item).
Proof.
  intros Hmode Hinst Hctrl v1 v2. unfold v2, v1.
  rewrite !onSelect_ctrl by assumption. simpl.
  split; [reflexivity|]. split; [by rewrite lookup_insert_eq|].
  split; [intros k Hk; by rewrite lookup_insert_ne|].
  assert (Hback : ∀ k,
    default false
      (<[ProjectEntry.id i :=
           negb (default false
                   (<[ProjectEntry.id i :=
                        negb (default false
                                (selections v !! ProjectEntry.id i))]>
                      (selections v) !! ProjectEntry.id i))]>
         (<[ProjectEntry.id i :=
              negb (default false (selections v !! ProjectEntry.id i))]>
            (selections v)) !! k)
    = default false (selections v !! k)).
  { intros k. destruct (decide (k = ProjectEntry.id i)) as [->|Hk].
    - rewrite !lookup_insert_eq. simpl. apply negb_involutive.
    - by rewrite !lookup_insert_ne. }
  intros [s| |e]; simpl; [reflexivity | apply Hback | apply Hback].
Qed.

Lemma ctrl_click_toggles_witness :
  checked
    (onSelect sample_props {| ctrlKey := true; shiftKey := false |}
       (sample_entry "sodium" 1) (sample_view (Some "lithium")))
    (Entry (sample_entry "sodium" 1)) = true
  ∧ selectedId
      (onSelect sample_props {| ctrlKey := true; shiftKey := false |}
         (sample_entry "sodium" 1) (sample_view (Some "lithium")))
    = Some "lithium".
Proof.
  pose proof (ctrl_click_toggles sample_props
                {| ctrlKey := true; shiftKey := false |}
                (sample_entry "sodium" 1) (sample_view (Some "lithium"))
                eq_refl ltac:(simpl; lia) eq_refl) as H.
  cbv zeta in H. destruct H as (Hid & Hflip & _).
  split; [by rewrite Hflip | exact Hid].
Defined.












(** ** The enabled flag of the proxy *)

Lemma notify_enabled parse_URL globalProxyHttps n st st' :
  notify parse_URL globalProxyHttps n st = Normal st' ->
  ProxySettingController.enabled (proxyControl st')
  = match n with
    | HttpProxyEnabledSet _ e => e
    | _ => ProxySettingController.enabled (proxyControl st)
    end
  ∧ ∀ x, x ∈ effects st -> x ∈ effects st'.
Proof.
  destruct n as [val|p|state e]; simpl.
  - intros [= <-]. done.
  - unfold httpProxySet, new_URL.
    destruct (parse_URL p); intros [= <-]; simpl; (split; [reflexivity|]);
      intros x Hx; rewrite ?elem_of_app; auto.
  - intros [= <-]. simpl. split; [reflexivity|].
    intros x Hx. rewrite elem_of_app. auto.
Qed.

Lemma notify_all_keeps_enabled parse_URL globalProxyHttps ns st :
  (∀ s e, HttpProxyEnabledSet s e ∉ ns) ->
  ∃ st', notify_all parse_URL globalProxyHttps ns st = Normal st'
    ∧ ProxySettingController.enabled (proxyControl st')
      = ProxySettingController.enabled (proxyControl st)
    ∧ ∀ x, x ∈ effects st -> x ∈ effects st'.
Proof.
  revert st. induction ns as [|n ns IH]; intros st Hnone; simpl.
  - by eexists.
  - destruct (notify_completes parse_URL globalProxyHttps n st)
      as (st1 & Hst1 & _).
    rewrite Hst1. simpl.
    destruct (IH st1) as (st' & Hst' & Hflag & Heff).
    { intros s e Hin. apply (Hnone s e). by right. }
    destruct (notify_enabled _ _ _ _ _ Hst1) as [Hflag1 Heff1].
    exists st'. split; [exact Hst'|]. split; [|by auto].
    rewrite Hflag, Hflag1.
    destruct n as [val|p|state e]; try reflexivity.
    destruct (Hnone state e). by left.
Qed.

(** After any sequence of notifications the enabled flag of the proxy
    controller is the one of the last [httpProxyEnabledSet]; and when that
    one disables the proxy, [app.setProxy] has been called with the empty
    string, whatever proxy the settings and the environment hold. *)
Theorem enabled_flag_is_the_last_notified
    parse_URL globalProxyHttps (ns1 ns2 : list Notification)
    (state : Settings) (e : bool) (st : Plugin) :
  (∀ s e', HttpProxyEnabledSet s e' ∉ ns2) ->
  ∃ st',
    notify_all parse_URL globalProxyHttps
      (ns1 ++ HttpProxyEnabledSet state e :: ns2) st = Normal st'
    ∧ ProxySettingController.enabled (proxyControl st') = e
    ∧ (e = false -> app_setProxy "" ∈ effects st').
Proof.
  intros Hlast. rewrite notify_all_app.
  destruct (notify_all_total parse_URL globalProxyHttps ns1 st) as (st1 & ->).
  simpl.
  destruct (notify_all_keeps_enabled parse_URL globalProxyHttps ns2
              (perform
                 (app_setProxy
                    (if e
                     then default "" (truthy_string
                                        (or_string (httpProxy state)
                                                   globalProxyHttps))
                     else ""))
                 (with_proxyControl
                    (ProxySettingController.setProxyEnabled e) st1)) Hlast)
    as (st' & Hst' & Hflag & Heff).
  exists st'. split; [exact Hst'|]. split; [by rewrite Hflag|].
  intros ->. apply Heff. simpl. rewrite elem_of_app. right. by left.
Qed.

Lemma enabled_flag_is_the_last_notified_witness :
  ∃ st',
    notify_all sample_parse_URL (Some "http://proxy.example:3128")
      ([HttpProxySet "http://127.0.0.1:7890"]
       ++ HttpProxyEnabledSet (sample_settings 16) false
          :: [MaxSocketsSet 8])
      sample_plugin = Normal st'
    ∧ ProxySettingController.enabled (proxyControl st') = false
    ∧ app_setProxy "" ∈ effects st'.
Proof.
  destruct (enabled_flag_is_the_last_notified sample_parse_URL
              (Some "http://proxy.example:3128")
              [HttpProxySet "http://127.0.0.1:7890"] [MaxSocketsSet 8]
              (sample_settings 16) false sample_plugin)
    as (st' & Hst' & Hflag & Hcleared).
  - intros s e' Hin. apply list_elem_of_singleton in Hin. discriminate Hin.
  - exists st'. split; [exact Hst'|]. split; [exact Hflag | by apply Hcleared].
Defined.
